(** * CHAN-DST data pipeline: a shallow embedding of [CHAN.py]

    The development follows the file top to bottom: the turn-record reader
    ([DataProcessor._read_tsv]), the example builder
    ([Processor._create_examples]), the pair truncation
    ([_truncate_seq_pair]), the turn encoder and dialogue assembler
    ([SUMBTDataset.__init__]), the collator ([SUMBTDataset.__getitem__],
    [collate_fn]) and the prediction writer and valid-turn count of [main].

    Python values are modelled as follows: [str] as [string], [int] as [Z]
    (lengths and positions as [nat]), [list] as [list], [dict] as [gmap],
    a raised exception as the [Raise] outcome of [res]. *)

From Stdlib Require Import ZArith Lia Ascii.
From stdpp Require Import base option list strings gmap pretty relations.

Local Open Scope string_scope.
Local Open Scope list_scope.
Local Open Scope Z_scope.

(** ** Outcomes of Python code *)

(** The exceptions the modelled code can raise.  [Diverged] is not one of
    Python's: it marks a loop that used up the steps the model allows it. *)
Inductive exn : Type :=
  | IndexError
  | KeyError
  | ValueError
  | UnboundLocalError
  | Diverged
  | AssertionError.

Inductive res (A : Type) : Type :=
  | Ok (a : A)
  | Raise (e : exn).
Arguments Ok {A} a.
Arguments Raise {A} e.

#[global] Instance res_bind : MBind res := fun A B (k : A -> res B) m =>
  match m with
  | Ok a => k a
  | Raise e => Raise e
  end.

(** [for x in xs: s = body s x], stopping at the first exception. *)
Fixpoint for_each {A S : Type} (body : S -> A -> res S) (xs : list A) (s : S)
  : res S :=
  match xs with
  | [] => Ok s
  | x :: xs' => s' ← body s x; for_each body xs' s'
  end.

(** A list comprehension [[f x for x in xs]] whose element expression may
    raise. *)
Fixpoint comprehension {A B : Type} (f : A -> res B) (xs : list A)
  : res (list B) :=
  match xs with
  | [] => Ok []
  | x :: xs' => y ← f x; ys ← comprehension f xs'; Ok (y :: ys)
  end.

(** One turn of a [while True] loop either breaks or goes round again. *)
Inductive turn (S : Type) : Type :=
  | Break (s : S)
  | Continue (s : S).
Arguments Break {S} s.
Arguments Continue {S} s.

(** [while True: body], run for at most [fuel] turns; [None] means the fuel
    ran out before the loop broke or raised. *)
Fixpoint while_true {S : Type} (body : S -> res (turn S)) (fuel : nat) (s : S)
  : option (res S) :=
  match fuel with
  | O => None
  | Datatypes.S fuel' =>
      match body s with
      | Raise e => Some (Raise e)
      | Ok (Break s') => Some (Ok s')
      | Ok (Continue s') => while_true body fuel' s'
      end
  end.

(** [l[i]] for a non-negative constant position. *)
Definition item {A : Type} (l : list A) (i : nat) : res A :=
  match l !! i with
  | Some x => Ok x
  | None => Raise IndexError
  end.

(** [l[p]] for an integer position: negative positions count from the end. *)
Definition item_int {A : Type} (l : list A) (p : Z) : res A :=
  if 0 <=? p then item l (Z.to_nat p)
  else if - Z.of_nat (length l) <=? p then item l (Z.to_nat (Z.of_nat (length l) + p))
  else Raise IndexError.

(** [l.pop()]: removes the last item; [IndexError] on an empty list. *)
Definition pop {A : Type} (l : list A) : res (list A) :=
  match l with
  | [] => Raise IndexError
  | _ :: _ => Ok (removelast l)
  end.

(** [max(l)] on a list of sizes; [ValueError] on an empty list. *)
Definition py_max (l : list nat) : res nat :=
  match l with
  | [] => Raise ValueError
  | x :: l' => Ok (foldl Nat.max x l')
  end.

(** ** [_truncate_seq_pair] *)

Module Truncate.
Section Truncate.
Context {T : Type}.

(** The body of the [while True] loop, on the two lists it mutates. *)
Definition truncate_body (max_length : Z) (s : list T * list T)
  : res (turn (list T * list T)) :=
  let '(tokens_a, tokens_b) := s in
  let total_length := Z.of_nat (length tokens_a + length tokens_b) in
  if total_length <=? max_length then Ok (Break (tokens_a, tokens_b))
  else if (length tokens_b <? length tokens_a)%nat then
    tokens_a' ← pop tokens_a; Ok (Continue (tokens_a', tokens_b))
  else
    tokens_b' ← pop tokens_b; Ok (Continue (tokens_a, tokens_b')).

(** The function returns nothing and mutates both lists; the model returns
    their final contents.  Each turn that does not break pops one token, so
    [length tokens_a + length tokens_b + 1] turns are enough
    ([truncate_fuel_enough] below). *)
Definition _truncate_seq_pair (tokens_a tokens_b : list T) (max_length : Z)
  : option (res (list T * list T)) :=
  while_true (truncate_body max_length)
    (S (length tokens_a + length tokens_b)) (tokens_a, tokens_b).

(** [s'] is the state after one more turn of the loop from [s]. *)
Definition iterates (max_length : Z) (s s' : list T * list T) : Prop :=
  truncate_body max_length s = Ok (Continue s').

(** The rule in the words of the specification, with the tie going to
    [tokens_a]. *)
Inductive spec_rule_tie_a (m : Z) : relation (list T * list T) :=
  | tie_a_longer_a a b :
      m < Z.of_nat (length a + length b) -> (length b < length a)%nat ->
      spec_rule_tie_a m (a, b) (removelast a, b)
  | tie_a_longer_b a b :
      m < Z.of_nat (length a + length b) -> (length a < length b)%nat ->
      spec_rule_tie_a m (a, b) (a, removelast b)
  | tie_a_equal a b :
      m < Z.of_nat (length a + length b) -> length a = length b ->
      spec_rule_tie_a m (a, b) (removelast a, b).

(** The same rule with the tie going to [tokens_b]. *)
Inductive spec_rule_tie_b (m : Z) : relation (list T * list T) :=
  | tie_b_longer_a a b :
      m < Z.of_nat (length a + length b) -> (length b < length a)%nat ->
      spec_rule_tie_b m (a, b) (removelast a, b)
  | tie_b_longer_b a b :
      m < Z.of_nat (length a + length b) -> (length a < length b)%nat ->
      spec_rule_tie_b m (a, b) (a, removelast b)
  | tie_b_equal a b :
      m < Z.of_nat (length a + length b) -> length a = length b ->
      spec_rule_tie_b m (a, b) (a, removelast b).
End Truncate.
End Truncate.

(** ** [DataProcessor._read_tsv] *)

Module Reader.
(** [s[0]] on a string. *)
Definition str_item0 (s : string) : res ascii :=
  match s with
  | EmptyString => Raise IndexError
  | String c _ => Ok c
  end.

(** [len(line) > 0 and line[0][0] == "#"] *)
Definition is_comment (line : list string) : res bool :=
  if bool_decide (0 < length line)%nat then
    field ← item line 0;
    c ← str_item0 field;
    Ok (bool_decide (c = "#"%char))
  else Ok false.

(** The argument stands for the rows [csv.reader] yields for the file:
    one list of fields per line, [[]] for a blank line. *)
Definition _read_tsv (reader : list (list string)) : res (list (list string)) :=
  for_each
    (fun lines line =>
       skip ← is_comment line;
       if (skip : bool) then Ok lines else Ok (lines ++ [line]))
    reader [].
End Reader.

(** ** [InputExample], [InputFeatures] *)

Module InputExample.
Record t : Type := mk {
  guid : string;
  text_a : string;
  text_b : option string;
  label : list string;
  update : list string;
}.
End InputExample.

Module InputFeatures.
Record t : Type := mk {
  input_ids : list Z;
  input_len : list Z;
  label_id : list Z;
  update : list Z;
  guid : string;
}.
End InputFeatures.

(** ** [Processor._create_examples] *)

Module Processor.
(** Reading a local variable that may not have been assigned yet. *)
Definition local (v : option string) : res string :=
  match v with
  | Some x => Ok x
  | None => Raise UnboundLocalError
  end.

(** The loop state: [prev_dialogue_index], the locals [text_a] and
    [text_b] (unassigned before the first row), and [examples]. *)
Definition state : Type :=
  option string * option string * option string * list InputExample.t.

Definition create_body (nslots : nat) (set_type : string) (accumulation : bool)
    (st : state) (line : list string) : res state :=
  let '(prev_dialogue_index, text_a, text_b, examples) := st in
  line0 ← item line 0;
  line1 ← item line 1;
  let guid := set_type +:+ "-" +:+ line0 +:+ "-" +:+ line1 in
  '(prev_dialogue_index, text_a, text_b) ←
    (if accumulation then
       if bool_decide (prev_dialogue_index = None
                       \/ prev_dialogue_index <> Some line0) then
         line2 ← item line 2;
         line3 ← item line 3;
         Ok (Some line0, line2, line3)
       else
         line2 ← item line 2;
         old_a ← local text_a;
         line3 ← item line 3;
         old_b ← local text_b;
         Ok (prev_dialogue_index,
             line2 +:+ " # " +:+ old_a, line3 +:+ " # " +:+ old_b)
     else
       line2 ← item line 2;
       line3 ← item line 3;
       Ok (prev_dialogue_index, line2, line3));
  label ← comprehension (fun idx => item line (4 + idx)) (seq 0 nslots);
  update ← comprehension (fun idx => item line (4 + nslots + idx)) (seq 0 nslots);
  Ok (prev_dialogue_index, Some text_a, Some text_b,
      examples ++ [InputExample.mk guid text_a (Some text_b) label update]).

(** [self.nslots] is a parameter; [self.target_slot_idx] is
    [range(0, nslots)]. *)
Definition _create_examples (nslots : nat) (lines : list (list string))
    (set_type : string) (accumulation : bool) : res (list InputExample.t) :=
  st ← for_each (create_body nslots set_type accumulation) lines
         (None, None, None, []);
  Ok st.2.
End Processor.

(** ** Strings, slices and dictionaries *)

(** [s.split(sep)] for a one-character separator: never empty. *)
Fixpoint split_on (sep : ascii) (s : string) : list string :=
  match s with
  | EmptyString => [EmptyString]
  | String c s' =>
      if decide (c = sep) then EmptyString :: split_on sep s'
      else match split_on sep s' with
           | w :: ws => String c w :: ws
           | [] => [String c EmptyString]
           end
  end.

(** [sep.join(l)] *)
Fixpoint join (sep : string) (l : list string) : string :=
  match l with
  | [] => EmptyString
  | [x] => x
  | x :: l' => x +:+ sep +:+ join sep l'
  end.

(** A slice bound [k] brought into [0 .. len]: negative bounds count from
    the end. *)
Definition clip (len : nat) (k : Z) : nat :=
  if 0 <=? k then Nat.min (Z.to_nat k) len else Z.to_nat (Z.of_nat len + k).

(** [l[lo:hi]], either bound possibly omitted. *)
Definition slice {A : Type} (l : list A) (lo hi : option Z) : list A :=
  let i := from_option (clip (length l)) 0%nat lo in
  let j := from_option (clip (length l)) (length l) hi in
  take (j - i) (drop i l).

(** [enumerate(l)] *)
Definition enumerate {A : Type} (l : list A) : list (nat * A) :=
  zip (seq 0 (length l)) l.

(** [d[k]] on a dictionary. *)
Definition dict_item {V : Type} (d : gmap string V) (k : string) : res V :=
  match d !! k with
  | Some v => Ok v
  | None => Raise KeyError
  end.

(** ** [SUMBTDataset.__init__] *)

Module SUMBTDataset.
Section SUMBTDataset.
(** The tokenizer is external: [tokenizer.tokenize] and
    [tokenizer.convert_tokens_to_ids].  The builtin [int] on strings is a
    parameter too; [None] stands for its [ValueError]. *)
Variable tokenize : string -> list string.
Variable convert_tokens_to_ids : list string -> list Z.
Variable int : string -> option Z.

Definition py_int (s : string) : res Z :=
  match int s with
  | Some z => Ok z
  | None => Raise ValueError
  end.

(** [x if x != "#" else "[SEP]"] *)
Definition sep_token (x : string) : string :=
  if decide (x <> "#") then x else "[SEP]".

(** Truthiness of [example.text_b]: neither [None] nor the empty string. *)
Definition truthy (text_b : option string) : option string :=
  match text_b with
  | Some EmptyString => None
  | other => other
  end.

(** The call [_truncate_seq_pair(tokens_a, tokens_b, max_seq_length - 3)];
    the loop never runs out of the fuel it is given
    ([truncate_fuel_enough]), so the default is not used. *)
Definition truncate_call (tokens_a tokens_b : list string) (max_length : Z)
  : res (list string * list string) :=
  default (Raise Diverged) (Truncate._truncate_seq_pair tokens_a tokens_b max_length).

(** Lines 196-220: the tokens and [input_len] of one example. *)
Definition encode_turn (max_seq_length : Z) (text_a : string)
    (text_b : option string) : res (list string * list Z) :=
  let tokens_a := sep_token <$> tokenize text_a in
  '(tokens_a, tokens_b) ←
    match truthy text_b with
    | Some b =>
        let tokens_b := sep_token <$> tokenize b in
        '(tokens_a, tokens_b) ← truncate_call tokens_a tokens_b (max_seq_length - 3);
        Ok (tokens_a, Some tokens_b)
    | None =>
        if Z.of_nat (length tokens_a) >? max_seq_length - 2
        then Ok (slice tokens_a None (Some (max_seq_length - 2)), None)
        else Ok (tokens_a, None)
    end;
  let tokens := ["[CLS]"] ++ tokens_a ++ ["[SEP]"] in
  let input_len := [Z.of_nat (length tokens); 0] in
  match tokens_b with
  | Some (t :: tokens_b') =>
      let tokens_b := t :: tokens_b' in
      Ok (tokens ++ tokens_b ++ ["[SEP]"],
          <[1%nat := Z.of_nat (length tokens_b) + 1]> input_len)
  | _ => Ok (tokens, input_len)
  end.

(** [{label: i for i, label in enumerate(labels)}]: a later duplicate
    overwrites an earlier one. *)
Definition label_dict (labels : list string) : gmap string nat :=
  foldl (fun d '(i, label) => <[label := i]> d) ∅ (enumerate labels).

Definition label_ids_of (label_map : list (gmap string nat))
    (label : list string) : res (list Z) :=
  comprehension
    (fun '(i, l) => d ← item label_map i; k ← dict_item d l; Ok (Z.of_nat k))
    (enumerate label).

(** [int(example.guid.split("-")[-1])] *)
Definition guid_turn (guid : string) : res Z :=
  py_int (List.last (split_on "-" guid) EmptyString).

(** The first loop: the largest turn index of the data set. *)
Definition max_turn_of (examples : list InputExample.t) : res Z :=
  for_each
    (fun max_turn example =>
       t ← guid_turn (InputExample.guid example);
       Ok (if max_turn <? t then t else max_turn))
    examples 0.

(** The state of the second loop: [self.all_features], [features] and the
    pair [prev_dialogue_idx], [prev_turn_idx], which are assigned together
    at the end of every turn of the loop ([None] before the first). *)
Definition state : Type :=
  list (list InputFeatures.t) * list InputFeatures.t * option (string * Z).

Definition init_body (label_map : list (gmap string nat))
    (max_seq_length max_turn_length : Z)
    (st : state) (example : InputExample.t) : res state :=
  let '(all_features, features, prev) := st in
  '(tokens, input_len) ←
    encode_turn max_seq_length (InputExample.text_a example)
      (InputExample.text_b example);
  let input_ids := convert_tokens_to_ids tokens in
  label_id ← label_ids_of label_map (InputExample.label example);
  let parts := split_on "-" (InputExample.guid example) in
  let curr_dialogue_idx := join "-" (slice parts None (Some (-1))) in
  curr_turn_idx ← guid_turn (InputExample.guid example);
  let guid := join "-" (slice parts (Some 1) (Some (-1))) in
  let '(all_features, features) :=
    match prev with
    | Some (prev_dialogue_idx, _) =>
        if decide (prev_dialogue_idx <> curr_dialogue_idx)
        then (all_features ++ [features], [])
        else (all_features, features)
    | None => (all_features, features)
    end in
  features ←
    (if match prev with
        | None => true
        | Some (_, prev_turn_idx) => prev_turn_idx <? max_turn_length
        end
     then
       update ← comprehension py_int (InputExample.update example);
       Ok (features ++ [InputFeatures.mk input_ids input_len label_id update guid])
     else Ok features);
  Ok (all_features, features, Some (curr_dialogue_idx, curr_turn_idx)).

(** The constructor, returning [self.all_features]. *)
Definition __init__ (examples : list InputExample.t)
    (label_list : list (list string)) (max_seq_length max_turn_length : Z)
  : res (list (list InputFeatures.t)) :=
  let label_map := label_dict <$> label_list in
  max_turn ← max_turn_of examples;
  let max_turn_length := Z.min (max_turn + 1) max_turn_length in
  '(all_features, features, _) ←
    for_each (init_body label_map max_seq_length max_turn_length) examples
      ([], [], None);
  Ok (all_features ++ [features]).
End SUMBTDataset.
End SUMBTDataset.

(** ** Tensors

    A 2-d tensor is the list of its rows and a 3-d tensor the list of its
    2-d blocks. *)

(** [torch.tensor(ll, dtype=torch.long)] on a list of lists: the rows must
    have one length. *)
Definition torch_tensor (ll : list (list Z)) : res (list (list Z)) :=
  match ll with
  | [] => Ok []
  | r :: _ =>
      if forallb (fun r' => length r' =? length r)%nat ll then Ok ll
      else Raise ValueError
  end.

(** [t.size(0)] and [t.size(1)]; a tensor built from no rows has one
    dimension only. *)
Definition size0 (t : list (list Z)) : nat := length t.

Definition size1 (t : list (list Z)) : res nat :=
  match t with
  | [] => Raise IndexError
  | r :: _ => Ok (length r)
  end.

(** ** [SUMBTDataset.__getitem__] and [collate_fn] *)

Module Collate.
(** What [__getitem__] returns. *)
Record item_t : Type := mk_item {
  item_input_ids : list (list Z);
  item_input_len : list (list Z);
  item_label_ids : list (list Z);
  item_update : list (list Z);
  item_guids : list string;
}.

(** What [collate_fn] returns.  [update] is converted with [.float()] at
    the end, which changes the element type and no value. *)
Record batch_t : Type := mk_batch {
  input_ids : list (list (list Z));
  input_len : list (list (list Z));
  label_ids : list (list (list Z));
  update : list (list (list Z));
  guids_list : list (list string);
  num_turns_list : list nat;
}.

(** [self.all_features[index]] is the argument. *)
Definition __getitem__ (features : list InputFeatures.t) : res item_t :=
  let input_ids := InputFeatures.input_ids <$> features in
  max_len ← py_max (length <$> input_ids);
  let input_ids :=
    (fun i => i ++ replicate (max_len - length i) 0) <$> input_ids in
  input_ids ← torch_tensor input_ids;
  input_len ← torch_tensor (InputFeatures.input_len <$> features);
  label_ids ← torch_tensor (InputFeatures.label_id <$> features);
  update ← torch_tensor (InputFeatures.update <$> features);
  let guids := InputFeatures.guid <$> features in
  Ok (mk_item input_ids input_len label_ids update guids).

(** [result[i, :src.size(0), :src.size(1)] = src] on block [dst] of
    [result]. *)
Definition assign_block (dst src : list (list Z)) : list (list Z) :=
  zip_with (fun d s => s ++ drop (length s) d) dst src ++ drop (length src) dst.

Definition padding (seq : list (list (list Z))) (pad_token : Z)
  : res (list (list (list Z))) :=
  max_len ← py_max (size0 <$> seq);
  dims ← comprehension size1 seq;
  max_dim ← py_max dims;
  let result :=
    replicate (length seq) (replicate max_len (replicate max_dim pad_token)) in
  Ok (foldl
        (fun result i =>
           match seq !! i with
           | Some src => alter (fun dst => assign_block dst src) i result
           | None => result
           end)
        result (List.seq 0 (length seq))).

Definition collate_fn (batch : list item_t) : res batch_t :=
  let input_ids_list := item_input_ids <$> batch in
  let input_len_list := item_input_len <$> batch in
  let label_ids_list := item_label_ids <$> batch in
  let update_list := item_update <$> batch in
  let guids_list := item_guids <$> batch in
  let num_turns_list := (fun i => size0 (item_input_ids i)) <$> batch in
  input_ids ← padding input_ids_list 0;
  input_len ← padding input_len_list 0;
  label_ids ← padding label_ids_list (-1);
  update ← padding update_list (-1);
  Ok (mk_batch input_ids input_len label_ids update guids_list num_turns_list).

(** A batch as the data loader forms it: [__getitem__] on each dialogue,
    then [collate_fn]. *)
Definition load_batch (dialogues : list (list InputFeatures.t)) : res batch_t :=
  batch ← comprehension __getitem__ dialogues;
  collate_fn batch.
End Collate.

(** ** [main]: valid turns and predictions *)

Module Main.
(** [label_ids[:, :, 0].view(-1)] *)
Definition slot0 (label_ids : list (list (list Z))) : res (list Z) :=
  comprehension (fun row => item row 0) (concat label_ids).

(** [(label_ids[:, :, 0].view(-1) != -1).sum().item()] *)
Definition nb_eval_ex (label_ids : list (list (list Z))) : res nat :=
  v ← slot0 label_ids;
  Ok (length (filter (fun x => x <> -1) v)).

Section Predictions.
(** [slot_meta] and [ontology] are read from two files. *)
Variable slot_meta : list string.
Variable ontology : gmap string (list string).

(** [ontology[s][p]] *)
Definition decode (s : string) (p : Z) : res string :=
  values ← dict_item ontology s;
  item_int values p.

(** The inner loop over [zip(slot_meta, pred)]. *)
Definition turn_state (pred : list Z) : res (list string) :=
  for_each
    (fun state '(s, p) =>
       v ← decode s p;
       if decide (v <> "none") then Ok (state ++ [s +:+ "-" +:+ v])
       else Ok state)
    (zip slot_meta pred) [].

(** [f"{guid}-{tid}"] *)
Definition prediction_key (guid : string) (tid : nat) : string :=
  guid +:+ "-" +:+ pretty tid.

(** The body of [for i in range(batch_size)]. *)
Definition predict_dialogue (guids : list (list string))
    (pred_slot : list (list (list Z))) (num_turns : list nat)
    (predictions : gmap string (list string)) (i : nat)
  : res (gmap string (list string)) :=
  guids_i ← item guids i;
  guid ← item guids_i 0;
  pred_slots ← item pred_slot i;
  num_turn ← item num_turns i;
  states ←
    for_each
      (fun states pred => state ← turn_state pred; Ok (states ++ [state]))
      (take num_turn pred_slots) [];
  Ok (foldl
        (fun predictions '(tid, state) =>
           <[prediction_key guid tid := state]> predictions)
        predictions (enumerate states)).

(** One batch of the test loop; [pred_slot] is what the tracker returns
    for the batch. *)
Definition predict_batch (batch : Collate.batch_t)
    (pred_slot : list (list (list Z)))
    (predictions : gmap string (list string))
  : res (gmap string (list string)) :=
  let batch_size := length (Collate.input_ids batch) in
  for_each
    (predict_dialogue (Collate.guids_list batch) pred_slot
       (Collate.num_turns_list batch))
    (seq 0 batch_size) predictions.
End Predictions.
End Main.

(** ** Stand-ins for the external parts

    The tokenizer and the builtin [int] are parameters of the model.  The
    concrete runs below use these simple instances: one token per character
    other than a space, the character code as token id, and the value of a
    string of decimal digits (on which the builtin agrees). *)

Module StandIn.
Fixpoint tokenize (text : string) : list string :=
  match text with
  | EmptyString => []
  | String c text' =>
      if decide (c = " "%char) then tokenize text'
      else String c EmptyString :: tokenize text'
  end.

Definition token_id (token : string) : Z :=
  match token with
  | String c EmptyString => Z.of_N (N_of_ascii c)
  | _ => 1
  end.

Definition convert_tokens_to_ids (tokens : list string) : list Z :=
  token_id <$> tokens.

Fixpoint digits (s : string) (acc : Z) : option Z :=
  match s with
  | EmptyString => Some acc
  | String c s' =>
      let n := Z.of_N (N_of_ascii c) in
      if bool_decide (48 <= n <= 57) then digits s' (10 * acc + (n - 48))
      else None
  end.

Definition int (s : string) : option Z :=
  match s with
  | EmptyString => None
  | _ => digits s 0
  end.
End StandIn.

(** ** Sample data for the concrete runs *)

Module Sample.
(** Two dialogues, of two turns and of one turn, with two slots. *)
Definition dialogues : list (list InputFeatures.t) :=
  [[InputFeatures.mk [1; 97; 1] [3; 0] [1; 0] [1; 0] "d1";
    InputFeatures.mk [1; 98; 99; 1] [4; 0] [2; 1] [1; 1] "d1"];
   [InputFeatures.mk [1; 100; 1; 101; 102; 1] [3; 3] [0; 0] [0; 0] "d2"]].

Definition slot_meta : list string := ["area"; "food"].

Definition ontology : gmap string (list string) :=
  <["area" := ["none"; "east"; "west"]]> (<["food" := ["none"; "thai"]]> ∅).

(** The collated batch of the two dialogues ([sample_batch_collated]), and
    what a tracker may predict for it; the second turn of the second
    dialogue is padding. *)
Definition batch : Collate.batch_t :=
  Collate.mk_batch
    [[[1; 97; 1; 0; 0; 0]; [1; 98; 99; 1; 0; 0]];
     [[1; 100; 1; 101; 102; 1]; [0; 0; 0; 0; 0; 0]]]
    [[[3; 0]; [4; 0]]; [[3; 3]; [0; 0]]]
    [[[1; 0]; [2; 1]]; [[0; 0]; [-1; -1]]]
    [[[1; 0]; [1; 1]]; [[0; 0]; [-1; -1]]]
    [["d1"; "d1"]; ["d2"]] [2; 1]%nat.

Definition pred_slot : list (list (list Z)) :=
  [[[1; 0]; [2; 1]]; [[0; 0]; [1; 1]]].
End Sample.

(** ** Vocabulary of the statements *)

(** A row with the [4 + 2 * nslots] fields the builder reads. *)
Definition full_row (nslots : nat) (line : list string) : Prop :=
  (4 + 2 * nslots <= length line)%nat.

(** What the specification says of the example built from row [i]. *)
Definition accumulated (lines : list (list string)) (examples : list InputExample.t)
    (i : nat) : Prop :=
  forall line ex, lines !! i = Some line -> examples !! i = Some ex ->
  exists did utt resp,
    line !! 0%nat = Some did /\ line !! 2%nat = Some utt /\ line !! 3%nat = Some resp
    /\ match i with
       | O =>
           InputExample.text_a ex = utt /\ InputExample.text_b ex = Some resp
       | S j =>
           exists pline pex pdid,
             lines !! j = Some pline /\ examples !! j = Some pex
             /\ pline !! 0%nat = Some pdid
             /\ if decide (pdid = did) then
                  exists prev_b,
                    InputExample.text_b pex = Some prev_b
                    /\ InputExample.text_a ex
                       = utt +:+ " # " +:+ InputExample.text_a pex
                    /\ InputExample.text_b ex = Some (resp +:+ " # " +:+ prev_b)
                else
                  InputExample.text_a ex = utt
                  /\ InputExample.text_b ex = Some resp
       end.

(** The loop invariant: the locals hold the texts of the last example and
    [prev_dialogue_index] the dialogue id of the last row. *)
Definition create_inv (lines : list (list string)) (st : Processor.state)
  : Prop :=
  let '(prev, text_a, text_b, examples) := st in
  length examples = length lines
  /\ (forall i, accumulated lines examples i)
  /\ match last lines with
     | None => prev = None
     | Some pline =>
         exists pex pdid pb,
           last examples = Some pex /\ pline !! 0%nat = Some pdid
           /\ prev = Some pdid
           /\ text_a = Some (InputExample.text_a pex)
           /\ InputExample.text_b pex = Some pb /\ text_b = Some pb
     end.

(** The outcome is not [AssertionError]. *)
Definition no_assertion_error {A : Type} (r : res A) : Prop :=
  r <> Raise AssertionError.

(** [f] is the feature record the constructor builds from [example]. *)
Definition feature_of (tokenize : string -> list string)
    (convert_tokens_to_ids : list string -> list Z) (int : string -> option Z)
    (label_map : list (gmap string nat)) (max_seq_length : Z)
    (example : InputExample.t) (f : InputFeatures.t) : Prop :=
  exists tokens input_len,
    SUMBTDataset.encode_turn tokenize max_seq_length
      (InputExample.text_a example) (InputExample.text_b example)
    = Ok (tokens, input_len)
    /\ InputFeatures.input_ids f = convert_tokens_to_ids tokens
    /\ InputFeatures.input_len f = input_len
    /\ SUMBTDataset.label_ids_of label_map (InputExample.label example)
       = Ok (InputFeatures.label_id f)
    /\ comprehension (SUMBTDataset.py_int int) (InputExample.update example)
       = Ok (InputFeatures.update f)
    /\ InputFeatures.guid f
       = join "-" (slice (split_on "-" (InputExample.guid example))
                     (Some 1) (Some (-1))).

(** Rows of one length, as [torch.tensor] needs them. *)
Definition uniform (rows : list (list Z)) : Prop :=
  exists n, Forall (fun r => length r = n) rows.

(** A dialogue [__getitem__] can turn into tensors: at least one feature,
    and per field rows of one length. *)
Definition loadable (features : list InputFeatures.t) : Prop :=
  features <> []
  /\ uniform (InputFeatures.input_len <$> features)
  /\ uniform (InputFeatures.label_id <$> features)
  /\ uniform (InputFeatures.update <$> features).

(** [src] padded with [pad] to [max_len] rows of [max_dim] entries. *)
Definition pad_block (max_len max_dim : nat) (pad : Z) (src : list (list Z))
  : list (list Z) :=
  ((fun r => r ++ replicate (max_dim - length r) pad) <$> src)
  ++ replicate (max_len - length src) (replicate max_dim pad).



(** The number of columns of a tensor that has rows. *)
Definition columns (t : list (list Z)) : nat :=
  match t with
  | [] => 0
  | r :: _ => length r
  end.

(** A stack of tensors [padding] accepts: not empty, and every tensor has
    rows, all of one length. *)
Definition stackable (seq : list (list (list Z))) : Prop :=
  seq <> [] /\ Forall (fun t => t <> [] /\ uniform t) seq.

(** The token rows [__getitem__] builds: each feature's ids padded with 0
    to [L] entries. *)
Definition token_rows (L : nat) (features : list InputFeatures.t)
  : list (list Z) :=
  (fun f => InputFeatures.input_ids f
            ++ replicate (L - length (InputFeatures.input_ids f)) 0)
  <$> features.

(** Every feature has a first slot, and its label id is an index. *)
Definition labelled (features : list InputFeatures.t) : Prop :=
  Forall (fun f => exists v rest,
            InputFeatures.label_id f = v :: rest /\ 0 <= v) features.

(** [it] is what [__getitem__] returns for the dialogue [features]. *)
Definition item_of (features : list InputFeatures.t) (it : Collate.item_t)
  : Prop :=
  Collate.__getitem__ features = Ok it
  /\ exists L,
       Forall (fun f => (length (InputFeatures.input_ids f) <= L)%nat) features
       /\ it = Collate.mk_item (token_rows L features)
                 (InputFeatures.input_len <$> features)
                 (InputFeatures.label_id <$> features)
                 (InputFeatures.update <$> features)
                 (InputFeatures.guid <$> features).

(** No character of [s] is a dash. *)
Fixpoint dash_free (s : string) : Prop :=
  match s with
  | EmptyString => True
  | String c s' => c <> "-"%char /\ dash_free s'
  end.

(** The strings of a turn in the words of the specification: one
    ["{slot}-{value}"] for every slot whose value is not ["none"], in slot
    order. *)
Definition slot_strings (decoded : list (string * string)) : list string :=
  (fun sv => sv.1 +:+ "-" +:+ sv.2)
  <$> filter (fun sv => sv.2 <> "none") decoded.

(** [state] is the entry of a turn predicted as [pred]: the slots of
    [zip(slot_meta, pred)] decode to [values] and [state] lists those not
    ["none"]. *)
Definition turn_entry (slot_meta : list string)
    (ontology : gmap string (list string)) (pred : list Z)
    (state : list string) : Prop :=
  exists values,
    Forall2 (fun sp v => Main.decode ontology sp.1 sp.2 = Ok v)
      (zip slot_meta pred) values
    /\ state = slot_strings (zip (zip slot_meta pred).*1 values).

(** Dialogue [i] of the batch: its guid, its predicted rows and its number
    of turns. *)
Definition dialogue_at (guids : list (list string))
    (pred_slot : list (list (list Z))) (num_turns : list nat) (i : nat)
    (guid : string) (rows : list (list Z)) (n : nat) : Prop :=
  (exists guids_i, guids !! i = Some guids_i /\ guids_i !! 0%nat = Some guid)
  /\ pred_slot !! i = Some rows
  /\ num_turns !! i = Some n.

(** Every slot of every turn up to [n] of the rows decodes in the
    ontology. *)
Definition decodable (slot_meta : list string)
    (ontology : gmap string (list string)) (rows : list (list Z)) (n : nat)
  : Prop :=
  forall t pred, (t < n)%nat -> rows !! t = Some pred ->
    Forall (fun sp => exists v, Main.decode ontology sp.1 sp.2 = Ok v)
      (zip slot_meta pred).

(** ** Vocabulary of the further properties *)

(** The length [tokens_a] is cut to when lists of lengths [A] and [B]
    exceed the budget [m]: all of it if [tokens_b] alone gives way, else
    the upper half of the budget or what [tokens_b] leaves. *)
Definition final_len_a (m A B : Z) : Z :=
  Z.min A (Z.max (m - B) ((m + 1) / 2)).

(** The first field of the row starts with ["#"]. *)
Definition hash_row (row : list string) : bool :=
  match row with
  | String c _ :: _ => bool_decide (c = "#"%char)
  | _ => false
  end.

(** [ex] is the example of [line]: the guid from the first two fields, the
    labels and the update flags from the two blocks of [nslots] fields
    after the fourth, and without accumulation the two texts from the third
    and fourth fields. *)
Definition example_of (nslots : nat) (set_type : string) (accumulation : bool)
    (line : list string) (ex : InputExample.t) : Prop :=
  (exists line0 line1,
     line !! 0%nat = Some line0 /\ line !! 1%nat = Some line1
     /\ InputExample.guid ex = set_type +:+ "-" +:+ line0 +:+ "-" +:+ line1)
  /\ InputExample.label ex = take nslots (drop 4 line)
  /\ InputExample.update ex = take nslots (drop (4 + nslots) line)
  /\ (accumulation = false ->
      line !! 2%nat = Some (InputExample.text_a ex)
      /\ exists line3, line !! 3%nat = Some line3
                       /\ InputExample.text_b ex = Some line3).

(** The locals [text_a], [text_b] are assigned whenever a row has been
    read. *)
Definition texts_assigned (st : Processor.state) : Prop :=
  let '(prev, text_a, text_b, _) := st in
  prev = None \/ (is_Some text_a /\ is_Some text_b).

(** Rows [j .. j + d] are consecutive rows of dialogue [did], and row [j]
    is the first of them: the row before it, if any, is of another
    dialogue. *)
Definition dialogue_run (lines : list (list string)) (did : string)
    (j d : nat) : Prop :=
  (forall k line, (k <= d)%nat -> lines !! (j + k)%nat = Some line ->
                  line !! 0%nat = Some did)
  /\ match j with
     | O => True
     | S j' => exists prev pdid, lines !! j' = Some prev
                                 /\ prev !! 0%nat = Some pdid /\ pdid <> did
     end.

(** Field [k] of the rows, newest row first, joined by [" # "]. *)
Definition history (k : nat) (rows : list (list string)) : string :=
  join " # " (reverse ((fun line => default EmptyString (line !! k)) <$> rows)).

(** [curr_dialogue_idx] of an example: its guid without the last part. *)
Definition dialogue_idx (example : InputExample.t) : string :=
  join "-" (slice (split_on "-" (InputExample.guid example)) None (Some (-1))).

(** The number of places where two neighbours of the list differ. *)
Fixpoint changes (l : list string) : nat :=
  match l with
  | x :: ((y :: _) as l') => (if decide (x = y) then 0 else 1) + changes l'
  | _ => 0
  end.

(** A small corpus for the concrete runs: two turns of dialogue [d1], one
    of [d2], one slot. *)
Module Corpus.
Definition examples : list InputExample.t :=
  [InputExample.mk "test-d1-0" "a" None ["none"] ["0"];
   InputExample.mk "test-d1-1" "b" (Some "c") ["east"] ["1"];
   InputExample.mk "test-d2-0" "d" None ["none"] ["0"]].

Definition label_list : list (list string) := [["none"; "east"]].

Definition all_features : list (list InputFeatures.t) :=
  [[InputFeatures.mk [1; 97; 1] [3; 0] [0] [0] "d1";
    InputFeatures.mk [1; 98; 1; 99; 1] [3; 2] [1] [1] "d1"];
   [InputFeatures.mk [1; 100; 1] [3; 0] [0] [0] "d2"]].
End Corpus.

(** The guid the constructor gives the features of a dialogue, from the
    dialogue index: the index without its first part. *)
Definition guid_of_idx (idx : string) : string :=
  join "-" (tail (split_on "-" idx)).

(** A 3-d tensor of shape [(B, T, W)]. *)
Definition has_shape (B T W : nat) (t : list (list (list Z))) : Prop :=
  length t = B
  /\ Forall (fun blk => length blk = T /\ Forall (fun r => length r = W) blk) t.

(** The number of token ids of a feature. *)
Definition num_tokens (f : InputFeatures.t) : nat :=
  length (InputFeatures.input_ids f).

(** ** [get_label_embedding] *)

Module LabelEmbedding.
Section LabelEmbedding.
Variable tokenize : string -> list string.
Variable convert_tokens_to_ids : list string -> list Z.

(** The token ids of a label before padding. *)
Definition label_ids (label : string) : list Z :=
  convert_tokens_to_ids (["[CLS]"] ++ tokenize label ++ ["[SEP]"]).

(** The body of [for label in labels]; [[0] * n] is empty for [n <= 0]. *)
Definition label_body (max_seq_length : Z) (features : list (list Z * nat))
    (label : string) : res (list (list Z * nat)) :=
  let label_token_ids := label_ids label in
  let label_len := length label_token_ids in
  let label_padding :=
    replicate (Z.to_nat (max_seq_length - Z.of_nat (length label_token_ids))) 0 in
  let label_token_ids := label_token_ids ++ label_padding in
  if decide (Z.of_nat (length label_token_ids) = max_seq_length)
  then Ok (features ++ [(label_token_ids, label_len)])
  else Raise AssertionError.

Definition get_label_embedding (labels : list string) (max_seq_length : Z)
  : res (list (list Z) * list nat) :=
  features ← for_each (label_body max_seq_length) labels [];
  all_label_token_ids ← torch_tensor (fst <$> features);
  let all_label_len := snd <$> features in
  Ok (all_label_token_ids, all_label_len).
End LabelEmbedding.
End LabelEmbedding.

(** A padded row of [get_label_embedding]: the ids, then zeros up to
    [max_seq_length] entries. *)
Definition label_row (max_seq_length : Z) (ids row : list Z) : Prop :=
  Z.of_nat (length row) = max_seq_length
  /\ take (length ids) row = ids
  /\ Forall (fun x => x = 0) (drop (length ids) row).

(** * Properties *)

(** ** Generic facts on the Python fragment *)

Lemma removelast_take {A : Type} (l : list A) :
  removelast l = take (Nat.pred (length l)) l.
Proof. apply removelast_firstn_len. Qed.

Lemma length_removelast' {A : Type} (l : list A) :
  length (removelast l) = Nat.pred (length l).
Proof. rewrite removelast_take, length_take. lia. Qed.

Lemma removelast_prefix {A : Type} (l : list A) : removelast l `prefix_of` l.
Proof. rewrite removelast_take. apply prefix_take. Qed.

(** ** [_truncate_seq_pair] *)

Section TruncateFacts.
Context {T : Type}.
Import Truncate.
Implicit Types (a b : list T) (m : Z) (s : list T * list T).

(** The four ways one turn of the loop can go. *)
Lemma truncate_body_cases m a b :
  (Z.of_nat (length a + length b) <= m
     /\ truncate_body m (a, b) = Ok (Break (a, b)))
  \/ (m < Z.of_nat (length a + length b) /\ (length b < length a)%nat
     /\ truncate_body m (a, b) = Ok (Continue (removelast a, b)))
  \/ (m < Z.of_nat (length a + length b) /\ (length a <= length b)%nat
     /\ b <> [] /\ truncate_body m (a, b) = Ok (Continue (a, removelast b)))
  \/ (m < 0 /\ a = [] /\ b = []
     /\ truncate_body m (a, b) = Raise IndexError).
Proof.
  unfold truncate_body.
  destruct (Z.leb_spec (Z.of_nat (length a + length b)) m) as [Hle|Hgt];
    [left; done|right].
  destruct (Nat.ltb_spec (length b) (length a)) as [Hlt|Hge].
  - left. destruct a as [|x a]; [simpl in Hlt; lia|]. done.
  - right. destruct b as [|y b].
    + right. destruct a; [|simpl in Hge; lia]. simpl in Hgt. done.
    + left. done.
Qed.

(** With a non-negative budget the loop breaks within
    [length a + length b + 1] turns, whatever extra fuel it is given. *)
Lemma truncate_loop_total fuel m a b :
  0 <= m -> (length a + length b < fuel)%nat ->
  exists a' b',
    while_true (truncate_body m) fuel (a, b) = Some (Ok (a', b'))
    /\ Z.of_nat (length a' + length b') = Z.min (Z.of_nat (length a + length b)) m
    /\ rtc (iterates m) (a, b) (a', b')
    /\ rtc (spec_rule_tie_b m) (a, b) (a', b')
    /\ a' `prefix_of` a /\ b' `prefix_of` b.
Proof.
  intros Hm. revert a b.
  induction fuel as [|fuel IH]; intros a b Hfuel; [lia|].
  destruct (truncate_body_cases m a b)
    as [[Hle Hb]|[(Hgt & Hlt & Hb)|[(Hgt & Hge & Hne & Hb)|(Hneg & _)]]];
    [| | |lia].
  - exists a, b. cbn [while_true]. rewrite Hb. repeat split; try done. lia.
  - destruct (IH (removelast a) b) as (a' & b' & Hw & Hlen & Hit & Hsp & Hpa & Hpb).
    { rewrite length_removelast'. lia. }
    exists a', b'. cbn [while_true]. rewrite Hb. split; [done|].
    rewrite length_removelast' in Hlen.
    split; [lia|]. split; [by eapply rtc_l|].
    split; [eapply rtc_l; [by constructor|done]|].
    split; [|done]. etrans; [done|apply removelast_prefix].
  - destruct (IH a (removelast b)) as (a' & b' & Hw & Hlen & Hit & Hsp & Hpa & Hpb).
    { rewrite length_removelast'. destruct b; [done|]. simpl in *. lia. }
    exists a', b'. cbn [while_true]. rewrite Hb. split; [done|].
    rewrite length_removelast' in Hlen.
    assert (0 < length b)%nat by (destruct b; [done|simpl; lia]).
    split; [lia|]. split; [by eapply rtc_l|].
    split.
    { eapply rtc_l; [|done].
      destruct (decide (length a = length b)); [by apply tie_b_equal|].
      apply tie_b_longer_b; [done|lia]. }
    split; [done|]. etrans; [done|apply removelast_prefix].
Qed.

Lemma truncate_loop_negative fuel m a b :
  m < 0 -> (length a + length b < fuel)%nat ->
  while_true (truncate_body m) fuel (a, b) = Some (Raise IndexError).
Proof.
  intros Hm. revert a b.
  induction fuel as [|fuel IH]; intros a b Hfuel; [lia|].
  cbn [while_true].
  destruct (truncate_body_cases m a b)
    as [[Hle _]|[(_ & Hlt & Hb)|[(_ & _ & Hne & Hb)|(_ & _ & _ & Hb)]]];
    [lia| | |by rewrite Hb]; rewrite Hb; apply IH; rewrite length_removelast'.
  - lia.
  - destruct b; [done|]. simpl in *. lia.
Qed.

(** A turn of the loop never pops the strictly shorter list. *)
Lemma iterates_pops_longer m s s' :
  iterates m s s' ->
  ((length s'.1 < length s.1)%nat -> ~ (length s.1 < length s.2)%nat)
  /\ ((length s'.2 < length s.2)%nat -> ~ (length s.2 < length s.1)%nat).
Proof.
  destruct s as [a b]. unfold iterates. intros Hit.
  destruct (truncate_body_cases m a b)
    as [[_ Hb]|[(_ & Hlt & Hb)|[(_ & Hge & _ & Hb)|(_ & _ & _ & Hb)]]];
    rewrite Hb in Hit; simplify_eq; simpl; lia.
Qed.

(** C5: with a budget [m >= 0], [_truncate_seq_pair] terminates (the loop
    breaks within the fuel the model gives it, and with any larger fuel,
    with the same lists), the final lengths add up to [min (a + b) m], and
    no turn of the loop pops a token from the list that is strictly
    shorter than the other. *)
Theorem C5_truncate_terminates_min m a b :
  0 <= m ->
  exists a' b',
    _truncate_seq_pair a b m = Some (Ok (a', b'))
    /\ (forall fuel, (length a + length b < fuel)%nat ->
          while_true (truncate_body m) fuel (a, b) = Some (Ok (a', b')))
    /\ Z.of_nat (length a' + length b') = Z.min (Z.of_nat (length a + length b)) m
    /\ rtc (iterates m) (a, b) (a', b')
    /\ forall s s', rtc (iterates m) (a, b) s -> iterates m s s' ->
         ((length s'.1 < length s.1)%nat -> ~ (length s.1 < length s.2)%nat)
         /\ ((length s'.2 < length s.2)%nat -> ~ (length s.2 < length s.1)%nat).
Proof.
  intros Hm.
  destruct (truncate_loop_total (S (length a + length b)) m a b Hm)
    as (a' & b' & Hw & Hlen & Hit & _); [lia|].
  exists a', b'. split; [done|]. split.
  { intros fuel Hfuel.
    destruct (truncate_loop_total fuel m a b Hm Hfuel)
      as (a2 & b2 & Hw2 & _ & Hit2 & _).
    rewrite Hw2. do 2 f_equal.
    (* both are final states of the same deterministic run *)
    clear -Hw Hw2 Hfuel.
    unfold _truncate_seq_pair in Hw.
    revert Hw Hw2. generalize (S (length a + length b)) as n.
    generalize (a, b) as s. clear a b Hfuel.
    induction fuel as [|fuel IH]; intros s n; [done|].
    destruct n as [|n]; [done|]. simpl.
    cbn [while_true].
    destruct (truncate_body m s) as [[s1|s1]|e]; try congruence.
    apply IH. }
  split; [done|]. split; [done|].
  intros s s' _ Hs. by apply (iterates_pops_longer m).
Qed.

(** C1 (amended): when the combined length exceeds a budget [m >= 0],
    [_truncate_seq_pair] returns the lists reached by repeatedly removing
    the last token of whichever list is currently longer, and of
    [tokens_b] when both have equal length, until the combined length is
    at most [m] (it is then exactly [m]); each result is a prefix of the
    list it started from. *)
Theorem C1_truncate_longer_first_tie_b m a b :
  0 <= m -> m < Z.of_nat (length a + length b) ->
  exists a' b',
    _truncate_seq_pair a b m = Some (Ok (a', b'))
    /\ rtc (spec_rule_tie_b m) (a, b) (a', b')
    /\ Z.of_nat (length a' + length b') = m
    /\ a' `prefix_of` a /\ b' `prefix_of` b.
Proof.
  intros Hm Hover.
  destruct (truncate_loop_total (S (length a + length b)) m a b Hm)
    as (a' & b' & Hw & Hlen & _ & Hsp & Hpa & Hpb); [lia|].
  exists a', b'. repeat split; try done. lia.
Qed.
End TruncateFacts.

Lemma C5_truncate_terminates_min_witness :
  exists a' b' : list Z,
    Truncate._truncate_seq_pair [1; 2; 3; 4] [5; 6] 3 = Some (Ok (a', b'))
    /\ Z.of_nat (length a' + length b') = 3.
Proof.
  destruct (C5_truncate_terminates_min 3 [1; 2; 3; 4] [5; 6])
    as (a' & b' & H1 & _ & H2 & _); [lia|].
  exists a', b'. split; [exact H1|exact H2].
Defined.

Lemma C1_truncate_longer_first_tie_b_witness :
  exists a' b' : list Z,
    Truncate._truncate_seq_pair [1; 2] [3; 4] 3 = Some (Ok (a', b'))
    /\ rtc (Truncate.spec_rule_tie_b 3) ([1; 2], [3; 4]) (a', b').
Proof.
  destruct (C1_truncate_longer_first_tie_b 3 [1; 2] [3; 4])
    as (a' & b' & H1 & H2 & _); [lia|simpl; lia|].
  exists a', b'. split; [exact H1|exact H2].
Defined.

(** C1 as stated fails twice over.  On a tie the loop pops [tokens_b], so
    the lists it returns are not those of the rule that pops [tokens_a] on a
    tie; and with a negative budget the loop empties both lists and then
    raises [IndexError] instead of meeting the budget. *)
Lemma C1_tie_pops_tokens_b :
  Truncate._truncate_seq_pair [1; 2] [3; 4] 3 = Some (Ok ([1; 2], [3]))
  /\ ~ rtc (Truncate.spec_rule_tie_a 3) ([1; 2], [3; 4]) ([1; 2], [3])
  /\ Truncate._truncate_seq_pair [1] ([] : list Z) (-1) = Some (Raise IndexError).
Proof.
  split; [reflexivity|]. split; [|reflexivity].
  intros Hrtc. apply rtc_inv in Hrtc as [Heq|(y & Hstep & Hrest)]; [done|].
  assert (length y.1 <= 1)%nat as Hy.
  { inversion Hstep; subst; simpl in *; lia. }
  assert (forall s s' : list Z * list Z,
            rtc (Truncate.spec_rule_tie_a 3) s s' ->
            (length s'.1 <= length s.1)%nat) as Hmono.
  { clear. induction 1 as [|s1 s2 s3 Hs _ IH]; [done|].
    etrans; [exact IH|].
    inversion Hs; subst; simpl; rewrite ?length_removelast'; lia. }
  apply Hmono in Hrest. simpl in Hrest. lia.
Qed.

(** ** Loops and comprehensions *)

Lemma for_each_app {A S : Type} (body : S -> A -> res S) (xs ys : list A) (s : S) :
  for_each body (xs ++ ys) s = s' ← for_each body xs s; for_each body ys s'.
Proof.
  revert s. induction xs as [|x xs IH]; intros s; simpl; [done|].
  destruct (body s x) as [s1|e]; simpl; [apply IH|done].
Qed.

Lemma comprehension_ok {A B : Type} (f : A -> res B) (xs : list A) :
  (forall x, x ∈ xs -> exists y, f x = Ok y) ->
  exists ys, comprehension f xs = Ok ys /\ Forall2 (fun x y => f x = Ok y) xs ys.
Proof.
  induction xs as [|x xs IH]; intros Hall; simpl.
  - exists []. split; [done|constructor].
  - destruct (Hall x) as [y Hy]; [left|].
    destruct IH as (ys & Hys & HF).
    { intros x' Hx'. apply Hall. by right. }
    exists (y :: ys). rewrite Hy, Hys. split; [done|by constructor].
Qed.

Lemma comprehension_inv {A B : Type} (f : A -> res B) (xs : list A) (ys : list B) :
  comprehension f xs = Ok ys -> Forall2 (fun x y => f x = Ok y) xs ys.
Proof.
  revert ys. induction xs as [|x xs IH]; intros ys; simpl.
  - intros [= <-]. constructor.
  - destruct (f x) as [y|e] eqn:Hy; simpl; [|done].
    destruct (comprehension f xs) as [ys'|e]; simpl; [|done].
    intros [= <-]. constructor; [done|by apply IH].
Qed.

Lemma item_ok {A : Type} (l : list A) (i : nat) :
  (i < length l)%nat -> exists x, item l i = Ok x /\ l !! i = Some x.
Proof.
  intros Hi. destruct (lookup_lt_is_Some_2 l i Hi) as [x Hx].
  exists x. unfold item. by rewrite Hx.
Qed.

(** ** [DataProcessor._read_tsv] *)

Section ReaderFacts.
Import Reader.

Lemma is_comment_raises line e : is_comment line = Raise e -> e = IndexError.
Proof.
  unfold is_comment, item. case_bool_decide; [|done].
  destruct (line !! 0%nat) as [field|]; simpl; [|congruence].
  destruct field; simpl; congruence.
Qed.

Lemma read_loop_raises (reader : list (list string)) (row : list string) lines :
  row ∈ reader -> row !! 0%nat = Some EmptyString ->
  for_each
    (fun lines line =>
       skip ← is_comment line;
       if (skip : bool) then Ok lines else Ok (lines ++ [line]))
    reader lines = Raise IndexError.
Proof.
  intros Hin Hrow. revert lines.
  induction reader as [|line reader IH]; intros lines; [by inversion Hin|].
  cbn [for_each].
  destruct (is_comment line) as [skip|e] eqn:Hc; simpl.
  - apply elem_of_cons in Hin as [->|Hin].
    + unfold is_comment, item in Hc. rewrite Hrow in Hc.
      destruct line; [done|]. simpl in Hc. done.
    + destruct skip; by apply IH.
  - by rewrite (is_comment_raises _ _ Hc).
Qed.

(** C10: a row that is not empty and whose first field is the empty string
    makes the reader fail with [IndexError]: the test [len(line) > 0]
    passes and [line[0][0]] then indexes the empty string, so the row is not
    kept as a data row. *)
Theorem C10_empty_first_field_raises (reader : list (list string))
    (row : list string) :
  row ∈ reader -> row <> [] -> row !! 0%nat = Some EmptyString ->
  _read_tsv reader = Raise IndexError.
Proof. intros Hin _ Hrow. by eapply read_loop_raises. Qed.
End ReaderFacts.

Lemma C10_empty_first_field_raises_witness :
  Reader._read_tsv [["d1"; "0"; "hi"]; [""; "1"; "there"]] = Raise IndexError.
Proof.
  apply (C10_empty_first_field_raises _ [""; "1"; "there"]).
  - set_solver.
  - discriminate.
  - reflexivity.
Defined.

(** ** [Processor._create_examples] *)

Section ProcessorFacts.
Import Processor.
Variable nslots : nat.
Variable set_type : string.

Lemma row_fields (line : list string) :
  full_row nslots line ->
  exists label update,
    comprehension (fun idx => item line (4 + idx)) (seq 0 nslots) = Ok label
    /\ comprehension (fun idx => item line (4 + nslots + idx)) (seq 0 nslots)
       = Ok update.
Proof.
  intros Hfull. unfold full_row in Hfull.
  destruct (comprehension_ok (fun idx => item line (4 + idx)) (seq 0 nslots))
    as (label & Hl & _).
  { intros idx Hidx%elem_of_seq.
    destruct (item_ok line (4 + idx)) as (x & Hx & _); [lia|by exists x]. }
  destruct (comprehension_ok (fun idx => item line (4 + nslots + idx)) (seq 0 nslots))
    as (update & Hu & _).
  { intros idx Hidx%elem_of_seq.
    destruct (item_ok line (4 + nslots + idx)) as (x & Hx & _); [lia|by exists x]. }
  by exists label, update.
Qed.

Lemma accumulated_snoc_old lines examples line ex i :
  length examples = length lines ->
  accumulated lines examples i ->
  (i < length lines)%nat ->
  accumulated (lines ++ [line]) (examples ++ [ex]) i.
Proof.
  intros Hlen Hacc Hi l e Hl He.
  rewrite lookup_app_l in Hl by done.
  rewrite lookup_app_l in He by lia.
  destruct (Hacc l e Hl He) as (did & utt & resp & H0 & H2 & H3 & Hrest).
  exists did, utt, resp. repeat split; try done.
  destruct i as [|j]; [done|].
  destruct Hrest as (pline & pex & pdid & Hpl & Hpe & Hrest).
  exists pline, pex, pdid.
  rewrite !lookup_app_l by lia. done.
Qed.

Lemma create_body_inv lines st line :
  create_inv lines st -> full_row nslots line ->
  exists st', create_body nslots set_type true st line = Ok st'
              /\ create_inv (lines ++ [line]) st'.
Proof.
  destruct st as [[[prev text_a] text_b] examples].
  intros (Hlen & Hacc & Hlast) Hfull.
  destruct (row_fields line Hfull) as (label & update & Hlab & Hupd).
  unfold full_row in Hfull.
  destruct (item_ok line 0) as (did & Hi0 & Hl0); [lia|].
  destruct (item_ok line 1) as (tid & Hi1 & Hl1); [lia|].
  destruct (item_ok line 2) as (utt & Hi2 & Hl2); [lia|].
  destruct (item_ok line 3) as (resp & Hi3 & Hl3); [lia|].
  unfold create_body. rewrite Hi0, Hi1. cbn [mbind res_bind].
  assert (forall ex,
            (forall l e, (lines ++ [line]) !! length lines = Some l ->
                         (examples ++ [ex]) !! length lines = Some e ->
                         l = line /\ e = ex)) as Hnew.
  { intros ex l e Hl He.
    rewrite lookup_app_r, Nat.sub_diag in Hl by lia.
    rewrite lookup_app_r in He by lia.
    replace (length lines - length examples)%nat with 0%nat in He by lia.
    simpl in *. by simplify_eq. }
  assert (forall ex,
            accumulated (lines ++ [line]) (examples ++ [ex]) (length lines) ->
            forall i, accumulated (lines ++ [line]) (examples ++ [ex]) i)
    as Hall.
  { intros ex Hlastacc i.
    destruct (decide (i < length lines)%nat) as [Hi|Hi].
    - by apply accumulated_snoc_old.
    - destruct (decide (i = length lines)) as [->|Hne]; [done|].
      intros l e Hl He. apply lookup_lt_Some in Hl.
      rewrite length_app in Hl. simpl in Hl. lia. }
  case_bool_decide as Hreset.
  - (* a new dialogue: the texts restart *)
    rewrite Hi2, Hi3. cbn [mbind res_bind]. rewrite Hlab, Hupd.
    cbn [mbind res_bind].
    eexists. split; [done|].
    split; [rewrite !length_app; simpl; lia|].
    split.
    + apply Hall. intros l e Hl He.
      destruct (Hnew _ _ _ Hl He) as [-> ->].
      exists did, utt, resp. repeat split; try done.
      destruct (length lines) as [|j] eqn:Hj; [done|].
      destruct (last lines) as [pline|] eqn:Hpl.
      2:{ apply last_None in Hpl. subst lines. done. }
      destruct Hlast as (pex & pdid & pb & Hpe & Hp0 & -> & -> & Hpb & ->).
      exists pline, pex, pdid.
      rewrite last_lookup in Hpl. rewrite last_lookup in Hpe. rewrite Hj in Hpl. simpl in Hpl.
      rewrite Hlen in Hpe. simpl in Hpe.
      rewrite !lookup_app_l by lia.
      repeat split; try done.
      destruct (decide (pdid = did)) as [->|Hne]; [|done].
      destruct Hreset as [?|?]; done.
    + rewrite last_snoc. exists (InputExample.mk
        (set_type +:+ "-" +:+ did +:+ "-" +:+ tid) utt (Some resp) label update),
        did, resp.
      rewrite last_snoc. done.
  - (* the same dialogue: the texts grow *)
    destruct (last lines) as [pline|] eqn:Hpl.
    2:{ subst prev. exfalso. apply Hreset. by left. }
    destruct Hlast as (pex & pdid & pb & Hpe & Hp0 & -> & -> & Hpb & ->).
    assert (pdid = did) as ->.
    { destruct (decide (pdid = did)); [done|].
      exfalso. apply Hreset. right. congruence. }
    rewrite Hi2, Hi3. cbn [mbind res_bind local]. rewrite Hlab, Hupd.
    cbn [mbind res_bind].
    eexists. split; [done|].
    split; [rewrite !length_app; simpl; lia|].
    split.
    + apply Hall. intros l e Hl He.
      destruct (Hnew _ _ _ Hl He) as [-> ->].
      exists did, utt, resp. repeat split; try done.
      destruct (length lines) as [|j] eqn:Hj.
      { destruct lines; done. }
      exists pline, pex, did.
      rewrite last_lookup in Hpl. rewrite last_lookup in Hpe. rewrite Hj in Hpl. simpl in Hpl.
      rewrite Hlen in Hpe. simpl in Hpe.
      rewrite !lookup_app_l by lia.
      repeat split; try done.
      rewrite decide_True by done. by exists pb.
    + rewrite last_snoc. eexists _, did, _.
      rewrite last_snoc. done.
Qed.

Lemma create_loop_inv lines :
  Forall (full_row nslots) lines ->
  exists st, for_each (create_body nslots set_type true) lines
               (None, None, None, []) = Ok st
             /\ create_inv lines st.
Proof.
  induction lines as [|line lines IH] using rev_ind; intros Hfull.
  - eexists. split; [done|]. repeat split; done.
  - apply Forall_app in Hfull as [Hfull Hline].
    rewrite Forall_singleton in Hline.
    destruct (IH Hfull) as (st & Hst & Hinv).
    destruct (create_body_inv lines st line Hinv Hline) as (st' & Hb & Hinv').
    exists st'. rewrite for_each_app, Hst. simpl. rewrite Hb. done.
Qed.

(** C6: with accumulation on and rows that have all their fields, the
    builder returns one example per row; the example of a row whose
    dialogue id equals the previous row's has as [text_a] (resp. [text_b])
    the row's utterance (resp. response), then [" # "], then the whole
    [text_a] (resp. [text_b]) of the previous example; the example of the
    first row, or of a row whose dialogue id differs from the previous
    row's, has exactly the row's utterance and response. *)
Theorem C6_accumulation_by_dialogue (lines : list (list string)) :
  Forall (full_row nslots) lines ->
  exists examples,
    _create_examples nslots lines set_type true = Ok examples
    /\ length examples = length lines
    /\ forall i, accumulated lines examples i.
Proof.
  intros Hfull.
  destruct (create_loop_inv lines Hfull) as ([[[prev ta] tb] examples] & Hst & Hinv).
  exists examples. unfold _create_examples. rewrite Hst.
  destruct Hinv as (Hlen & Hacc & _). done.
Qed.
End ProcessorFacts.

Lemma C6_accumulation_by_dialogue_witness :
  exists examples,
    Processor._create_examples 1
      [["d1"; "0"; "hi"; "hello"; "none"; "0"];
       ["d1"; "1"; "east"; "ok"; "east"; "1"];
       ["d2"; "0"; "bye"; "see you"; "none"; "0"]] "train" true = Ok examples
    /\ InputExample.text_a <$> examples = ["hi"; "east # hi"; "bye"].
Proof.
  destruct (C6_accumulation_by_dialogue 1 "train"
      [["d1"; "0"; "hi"; "hello"; "none"; "0"];
       ["d1"; "1"; "east"; "ok"; "east"; "1"];
       ["d2"; "0"; "bye"; "see you"; "none"; "0"]]) as (examples & Hex & _).
  { unfold full_row. repeat constructor. }
  exists examples. split; [exact Hex|].
  vm_compute in Hex. injection Hex as <-. reflexivity.
Defined.


(** ** The turn encoder of [SUMBTDataset.__init__] *)

Section TruncateFuel.
Context {T : Type}.
Import Truncate.

(** The loop breaks or raises within the fuel, whatever the budget. *)
Lemma truncate_loop_fuel fuel m (a b : list T) :
  (length a + length b < fuel)%nat ->
  is_Some (while_true (truncate_body m) fuel (a, b)).
Proof.
  revert a b. induction fuel as [|fuel IH]; intros a b Hfuel; [lia|].
  cbn [while_true].
  destruct (truncate_body_cases m a b)
    as [[_ Hb]|[(_ & Hlt & Hb)|[(_ & _ & Hne & Hb)|(_ & _ & _ & Hb)]]];
    rewrite Hb; try done.
  - apply IH. rewrite length_removelast'. lia.
  - apply IH. rewrite length_removelast'. destruct b; [done|]. simpl in *. lia.
Qed.

Lemma truncate_fuel_enough m (a b : list T) :
  is_Some (_truncate_seq_pair a b m).
Proof. apply truncate_loop_fuel. lia. Qed.
End TruncateFuel.

Lemma take_min_length {A : Type} (k : nat) (l : list A) :
  take (Nat.min k (length l)) l = take k l.
Proof.
  destruct (decide (k <= length l)%nat).
  - by rewrite Nat.min_l.
  - rewrite Nat.min_r by lia. by rewrite !take_ge by lia.
Qed.

Lemma slice_to_take {A : Type} (l : list A) (k : Z) :
  0 <= k -> slice l None (Some k) = take (Z.to_nat k) l.
Proof.
  intros Hk. unfold slice, clip. simpl.
  destruct (Z.leb_spec 0 k); [|lia].
  by rewrite Nat.sub_0_r, take_min_length.
Qed.

Section EncoderFacts.
Variable tokenize : string -> list string.
Import SUMBTDataset.

Lemma sep_token_not_marker x : sep_token x <> "#".
Proof. unfold sep_token. case_decide; done. Qed.

Lemma prefix_no_marker (l : list string) (text : string) :
  l `prefix_of` (sep_token <$> tokenize text) -> "#" ∉ l.
Proof.
  intros [k Hk] Hin.
  assert ("#" ∈ sep_token <$> tokenize text) as Hin'.
  { rewrite Hk. apply elem_of_app. by left. }
  apply list_elem_of_fmap in Hin' as (x & Hx & _).
  by apply (sep_token_not_marker x).
Qed.

Lemma layout_no_marker (tokens_a tokens_b : list string) :
  "#" ∉ tokens_a -> "#" ∉ tokens_b ->
  "#" ∉ ["[CLS]"] ++ tokens_a ++ ["[SEP]"] ++ tokens_b ++ ["[SEP]"].
Proof.
  intros Ha Hb. rewrite !not_elem_of_app, !not_elem_of_cons.
  repeat split; try done; apply not_elem_of_nil.
Qed.

Lemma layout_single_no_marker (tokens_a : list string) :
  "#" ∉ tokens_a -> "#" ∉ ["[CLS]"] ++ tokens_a ++ ["[SEP]"].
Proof.
  intros Ha. rewrite !not_elem_of_app, !not_elem_of_cons.
  repeat split; try done; apply not_elem_of_nil.
Qed.

(** What the encoder returns without a second text, for every
    [max_seq_length]: [tokens_a[:max_seq_length - 2]] when [tokens_a] is
    longer than that, a negative bound counting from the end as Python's
    slices do. *)
Lemma encode_turn_single (max_seq_length : Z) (text_a : string)
    (text_b : option string) :
  truthy text_b = None ->
  let all_a : list string := sep_token <$> tokenize text_a in
  let tokens_a :=
    take (if decide (2 <= max_seq_length) then Z.to_nat (max_seq_length - 2)
          else Z.to_nat (Z.of_nat (length all_a) + (max_seq_length - 2)))
      all_a in
  encode_turn tokenize max_seq_length text_a text_b
  = Ok (["[CLS]"] ++ tokens_a ++ ["[SEP]"],
        [Z.of_nat (length tokens_a) + 2; 0]).
Proof.
  intros Hb all_a tokens_a. unfold encode_turn. fold all_a. rewrite Hb.
  assert ((if Z.of_nat (length all_a) >? max_seq_length - 2
           then Ok (slice all_a None (Some (max_seq_length - 2)), None)
           else Ok (all_a, @None (list string)))
          = Ok (tokens_a, None)) as ->.
  { unfold tokens_a.
    destruct (Z.gtb_spec (Z.of_nat (length all_a)) (max_seq_length - 2)).
    - case_decide.
      + by rewrite slice_to_take by lia.
      + unfold slice, clip. simpl.
        destruct (Z.leb_spec 0 (max_seq_length - 2)); [lia|].
        by rewrite Nat.sub_0_r.
    - rewrite decide_True by lia. by rewrite take_ge by lia. }
  cbn [mbind res_bind]. do 3 f_equal.
  cbn [app length]. rewrite length_app. simpl. lia.
Qed.

(** C7 (amended): the encoder returns unless [text_b] is present and not
    empty while [max_seq_length < 3], and whenever it returns, for every
    [max_seq_length], the output is
    [[CLS] + tokens_a + [SEP] + tokens_b + [SEP]] with lengths
    [(len(tokens_a) + 2, len(tokens_b) + 1)] when [text_b] is present and
    [tokens_b] is not empty after tokenization and truncation, and
    [[CLS] + tokens_a + [SEP]] with lengths [(len(tokens_a) + 2, 0)] when
    [text_b] is absent or empty or [tokens_b] ends up empty; [tokens_a] and
    [tokens_b] are the tokenizer's output with every ["#"] replaced by
    ["[SEP]"], cut by [_truncate_seq_pair] to [max_seq_length - 3] tokens
    in all (without [text_b]: [tokens_a[:max_seq_length - 2]] when
    [tokens_a] is longer than that); no ["#"] token is left in the
    output. *)
Theorem C7_encode_turn_layout (max_seq_length : Z) (text_a : string)
    (text_b : option string) :
  let all_a : list string := sep_token <$> tokenize text_a in
  ((exists r, encode_turn tokenize max_seq_length text_a text_b = Ok r)
   <-> truthy text_b = None \/ 3 <= max_seq_length)
  /\ forall tokens input_len,
       encode_turn tokenize max_seq_length text_a text_b
       = Ok (tokens, input_len) ->
       ("#" ∉ tokens)
       /\ match truthy text_b with
          | None =>
              let tokens_a :=
                take (if decide (2 <= max_seq_length)
                      then Z.to_nat (max_seq_length - 2)
                      else Z.to_nat (Z.of_nat (length all_a)
                                     + (max_seq_length - 2)))
                  all_a in
              tokens = ["[CLS]"] ++ tokens_a ++ ["[SEP]"]
              /\ input_len = [Z.of_nat (length tokens_a) + 2; 0]
          | Some b =>
              exists tokens_a tokens_b,
                Truncate._truncate_seq_pair all_a (sep_token <$> tokenize b)
                  (max_seq_length - 3) = Some (Ok (tokens_a, tokens_b))
                /\ if decide (tokens_b = []) then
                     tokens = ["[CLS]"] ++ tokens_a ++ ["[SEP]"]
                     /\ input_len = [Z.of_nat (length tokens_a) + 2; 0]
                   else
                     tokens = ["[CLS]"] ++ tokens_a ++ ["[SEP]"]
                              ++ tokens_b ++ ["[SEP]"]
                     /\ input_len = [Z.of_nat (length tokens_a) + 2;
                                     Z.of_nat (length tokens_b) + 1]
          end.
Proof.
  intros all_a.
  destruct (truthy text_b) as [b|] eqn:Hb.
  - destruct (decide (3 <= max_seq_length)) as [Hmsl|Hmsl].
    + destruct (truncate_loop_total
                  (S (length all_a + length (sep_token <$> tokenize b)))
                  (max_seq_length - 3) all_a (sep_token <$> tokenize b))
        as (ta & tb & Hw & _ & _ & _ & Hpa & Hpb); [lia|lia|].
      assert ("#" ∉ ta) as Hna by by eapply prefix_no_marker.
      assert ("#" ∉ tb) as Hnb by by eapply prefix_no_marker.
      unfold encode_turn. fold all_a. rewrite Hb.
      unfold truncate_call, Truncate._truncate_seq_pair. rewrite Hw.
      cbn [default mbind res_bind].
      destruct tb as [|t tb].
      * split; [split; [by right|by eexists]|].
        intros tokens input_len [= <- <-]. split.
        { by apply layout_single_no_marker. }
        exists ta, []. split; [done|]. rewrite decide_True by done.
        split; [done|]. simpl. rewrite ?length_app. simpl.
        repeat f_equal; lia.
      * split; [split; [by right|by eexists]|].
        intros tokens input_len [= <- <-]. split.
        { rewrite <- app_assoc. by apply (layout_no_marker ta (t :: tb)). }
        exists ta, (t :: tb). split; [done|]. rewrite decide_False by done.
        split; [by rewrite <- ?app_assoc|].
        simpl. rewrite ?length_app. simpl. repeat f_equal; lia.
    + assert (encode_turn tokenize max_seq_length text_a text_b
              = Raise IndexError) as Hraise.
      { unfold encode_turn. rewrite Hb.
        unfold truncate_call, Truncate._truncate_seq_pair.
        rewrite truncate_loop_negative by lia. done. }
      rewrite Hraise. split; [|done]. split.
      * by intros [r ?].
      * intros [?|?]; [done|lia].
  - rewrite (encode_turn_single _ _ _ Hb). fold all_a.
    split; [split; [by left|by eexists]|].
    intros tokens input_len [= <- <-]. split; [|done].
    apply layout_single_no_marker. eapply prefix_no_marker, prefix_take.
Qed.
End EncoderFacts.

Lemma C7_encode_turn_layout_witness :
  (exists r,
     SUMBTDataset.encode_turn StandIn.tokenize 10 "a # b" (Some "cd") = Ok r)
  /\ ("#" ∉ ["[CLS]"; "a"; "[SEP]"; "b"; "[SEP]"; "c"; "d"; "[SEP]"])
  /\ SUMBTDataset.encode_turn StandIn.tokenize 1 "abc" None
     = Ok (["[CLS]"; "a"; "b"; "[SEP]"], [4; 0]).
Proof.
  destruct (C7_encode_turn_layout StandIn.tokenize 10 "a # b" (Some "cd"))
    as [[_ Hret] Hlayout].
  split; [apply Hret; right; lia|].
  split; [apply (Hlayout _ [5; 3]); reflexivity|].
  reflexivity.
Defined.

(** C7 as stated fails when [text_b] is present and [tokens_b] comes out of
    the truncation empty: with the budget [max_seq_length - 3 = 1] the pair
    ["ab"], ["cd"] is cut to one token of [tokens_a] and none of [tokens_b],
    and the encoder then adds neither [tokens_b] nor the closing ["[SEP]"]
    and leaves the second length at 0. *)
Lemma C7_present_text_b_without_segment :
  SUMBTDataset.truthy (Some "cd") = Some "cd"
  /\ SUMBTDataset.encode_turn StandIn.tokenize 4 "ab" (Some "cd")
     = Ok (["[CLS]"; "a"; "[SEP]"], [3; 0])
  /\ forall tokens_a tokens_b : list string,
       (["[CLS]"; "a"; "[SEP]"], [3; 0])
       <> (["[CLS]"] ++ tokens_a ++ ["[SEP]"] ++ tokens_b ++ ["[SEP]"],
           [Z.of_nat (length tokens_a) + 2; Z.of_nat (length tokens_b) + 1]).
Proof.
  split; [reflexivity|]. split; [reflexivity|].
  intros tokens_a tokens_b [= _ _ Hlen]. lia.
Qed.

(** ** The dialogue assembler of [SUMBTDataset.__init__] *)

Lemma bind_ok_inv {A B : Type} (m : res A) (k : A -> res B) (b : B) :
  (m ≫= k) = Ok b -> exists a, m = Ok a /\ k a = Ok b.
Proof. destruct m as [a|e]; simpl; [by exists a|done]. Qed.

Lemma bind_no_assert {A B : Type} (m : res A) (k : A -> res B) :
  no_assertion_error m -> (forall a, no_assertion_error (k a)) ->
  no_assertion_error (m ≫= k).
Proof.
  destruct m as [a|e]; simpl; intros Hm Hk; [apply Hk|].
  intros [= ->]. by apply Hm.
Qed.

Lemma for_each_no_assert {A S : Type} (body : S -> A -> res S) xs s :
  (forall s x, no_assertion_error (body s x)) ->
  no_assertion_error (for_each body xs s).
Proof.
  intros Hbody. revert s.
  induction xs as [|x xs IH]; intros s; cbn [for_each]; [done|].
  apply bind_no_assert; auto.
Qed.

Lemma comprehension_no_assert {A B : Type} (f : A -> res B) xs :
  (forall x, no_assertion_error (f x)) ->
  no_assertion_error (comprehension f xs).
Proof.
  intros Hf. induction xs as [|x xs IH]; cbn [comprehension]; [done|].
  apply bind_no_assert; [auto|]. intros y.
  apply bind_no_assert; [auto|]. done.
Qed.

Lemma item_no_assert {A : Type} (l : list A) i : no_assertion_error (item l i).
Proof. unfold item. by destruct (l !! i). Qed.

Lemma dict_item_no_assert {V : Type} (d : gmap string V) k :
  no_assertion_error (dict_item d k).
Proof. unfold dict_item. by destruct (d !! k). Qed.

Lemma truncate_no_assert {T : Type} fuel m (s : list T * list T) r :
  while_true (Truncate.truncate_body m) fuel s = Some r -> no_assertion_error r.
Proof.
  revert s. induction fuel as [|fuel IH]; intros [a b]; [done|].
  cbn [while_true].
  destruct (truncate_body_cases m a b)
    as [[_ Hb]|[(_ & _ & Hb)|[(_ & _ & _ & Hb)|(_ & _ & _ & Hb)]]];
    rewrite Hb; try apply IH; by intros [= <-].
Qed.

Create HintDb no_assert.
#[local] Hint Resolve item_no_assert dict_item_no_assert : no_assert.

Section AssemblerFacts.
Variable tokenize : string -> list string.
Variable convert_tokens_to_ids : list string -> list Z.
Variable int : string -> option Z.
Import SUMBTDataset.

Lemma py_int_no_assert s : no_assertion_error (py_int int s).
Proof. unfold py_int. by destruct (int s). Qed.

Lemma encode_turn_no_assert msl text_a text_b :
  no_assertion_error (encode_turn tokenize msl text_a text_b).
Proof.
  unfold encode_turn. apply bind_no_assert.
  - destruct (truthy text_b) as [b|].
    + apply bind_no_assert; [|by intros []].
      unfold truncate_call.
      destruct (Truncate._truncate_seq_pair _ _ _) as [r|] eqn:Hr; [|done].
      by eapply truncate_no_assert.
    + by case_match.
  - intros [ta [[|t tb]|]]; done.
Qed.

Lemma label_ids_of_no_assert label_map label :
  no_assertion_error (label_ids_of label_map label).
Proof.
  apply comprehension_no_assert. intros [i l].
  apply bind_no_assert; [auto with no_assert|]. intros d.
  apply bind_no_assert; [auto with no_assert|]. done.
Qed.

Lemma init_body_no_assert label_map msl mtl st example :
  no_assertion_error
    (init_body tokenize convert_tokens_to_ids int label_map msl mtl st example).
Proof.
  destruct st as [[af fs] prev]. unfold init_body.
  apply bind_no_assert; [apply encode_turn_no_assert|]. intros [tokens input_len].
  apply bind_no_assert; [apply label_ids_of_no_assert|]. intros label_id.
  apply bind_no_assert; [apply py_int_no_assert|]. intros curr.
  repeat case_match; (apply bind_no_assert; [|done]); try done;
    (apply bind_no_assert; [|done]);
    apply comprehension_no_assert, py_int_no_assert.
Qed.

(** What one turn of the second loop does to the features kept so far:
    it appends the feature of the example, or nothing. *)
Lemma init_body_appends label_map msl mtl af fs prev example af' fs' prev' :
  init_body tokenize convert_tokens_to_ids int label_map msl mtl
    (af, fs, prev) example = Ok (af', fs', prev') ->
  concat (af' ++ [fs']) = concat (af ++ [fs])
  \/ exists f,
       feature_of tokenize convert_tokens_to_ids int label_map msl example f
       /\ concat (af' ++ [fs']) = concat (af ++ [fs]) ++ [f].
Proof.
  unfold init_body. intros H.
  apply bind_ok_inv in H as ([tokens input_len] & Henc & H).
  apply bind_ok_inv in H as (label_id & Hlab & H).
  apply bind_ok_inv in H as (curr & Hcurr & H).
  set (split := match prev with
                | Some (prev_dialogue_idx, _) => _
                | None => _
                end) in H.
  assert (concat (split.1 ++ [split.2]) = concat (af ++ [fs])) as Hsplit.
  { unfold split. destruct prev as [[pd pt]|]; [|done].
    case_decide; [|done]. simpl. by rewrite !concat_app, app_nil_r. }
  destruct split as [af1 fs1]. simpl in Hsplit.
  apply bind_ok_inv in H as (fs2 & Hfs & H). simplify_eq.
  case_match.
  - apply bind_ok_inv in Hfs as (update & Hupd & Hfs). simplify_eq.
    right.
    exists (InputFeatures.mk (convert_tokens_to_ids tokens) input_len label_id
              update
              (join "-" (slice (split_on "-" (InputExample.guid example))
                           (Some 1) (Some (-1))))).
    split.
    + exists tokens, input_len. simpl. repeat split; done.
    + rewrite <- Hsplit. rewrite !concat_app. simpl.
      by rewrite !app_nil_r, app_assoc.
  - left. by simplify_eq.
Qed.

Lemma init_loop_order label_map msl mtl examples af fs prev af' fs' prev' :
  for_each (init_body tokenize convert_tokens_to_ids int label_map msl mtl)
    examples (af, fs, prev) = Ok (af', fs', prev') ->
  exists kept new,
    kept `sublist_of` examples
    /\ Forall2 (feature_of tokenize convert_tokens_to_ids int label_map msl)
         kept new
    /\ concat (af' ++ [fs']) = concat (af ++ [fs]) ++ new.
Proof.
  revert af fs prev.
  induction examples as [|example examples IH]; intros af fs prev;
    cbn [for_each].
  - intros [= <- <- <-]. exists [], []. by rewrite app_nil_r.
  - intros H. apply bind_ok_inv in H as ([[af1 fs1] prev1] & Hbody & H).
    destruct (IH _ _ _ H) as (kept & new & Hsub & HF & Hcat).
    destruct (init_body_appends _ _ _ _ _ _ _ _ _ _ Hbody)
      as [Heq|(f & Hf & Heq)].
    + exists kept, new. split; [by apply sublist_cons|].
      split; [done|]. by rewrite Hcat, Heq.
    + exists (example :: kept), (f :: new). split; [by apply sublist_skip|].
      split; [by constructor|]. rewrite Hcat, Heq. by rewrite <- app_assoc.
Qed.

(** C9 (amended): the dialogue assembler checks nothing about turn
    indices.  Whatever the examples, and so also when the turn indices of
    a dialogue are not contiguous or not ascending, the constructor does
    not fail with an [AssertionError]; and when it returns, the features
    it kept are, in input order, the features of a subsequence of the
    examples: nothing is reordered. *)
Theorem C9_no_turn_index_check (examples : list InputExample.t)
    (label_list : list (list string)) (max_seq_length max_turn_length : Z) :
  no_assertion_error
    (__init__ tokenize convert_tokens_to_ids int examples label_list
       max_seq_length max_turn_length)
  /\ forall all_features,
       __init__ tokenize convert_tokens_to_ids int examples label_list
         max_seq_length max_turn_length = Ok all_features ->
       exists kept,
         kept `sublist_of` examples
         /\ Forall2
              (feature_of tokenize convert_tokens_to_ids int
                 (label_dict <$> label_list) max_seq_length)
              kept (concat all_features).
Proof.
  unfold __init__. split.
  - apply bind_no_assert.
    + apply for_each_no_assert. intros s x.
      apply bind_no_assert; [apply py_int_no_assert|done].
    + intros max_turn. apply bind_no_assert.
      * apply for_each_no_assert. intros. apply init_body_no_assert.
      * by intros [[? ?] ?].
  - intros all_features H.
    apply bind_ok_inv in H as (max_turn & _ & H).
    apply bind_ok_inv in H as ([[af fs] prev] & Hloop & H). simplify_eq.
    destruct (init_loop_order _ _ _ _ _ _ _ _ _ _ Hloop)
      as (kept & new & Hsub & HF & Hcat).
    exists kept. split; [done|]. by rewrite Hcat.
Qed.
End AssemblerFacts.

(** C9 as stated fails: a dialogue whose turns come as 2 then 0 is accepted,
    and both turns are kept as they came. *)
Lemma C9_descending_turns_accepted :
  SUMBTDataset.__init__ StandIn.tokenize StandIn.convert_tokens_to_ids StandIn.int
    [InputExample.mk "test-d1-2" "a" None ["none"] ["0"];
     InputExample.mk "test-d1-0" "b" None ["east"] ["1"]]
    [["none"; "east"]] 128 22
  = Ok [[InputFeatures.mk [1; 97; 1] [3; 0] [0] [0] "d1";
         InputFeatures.mk [1; 98; 1] [3; 0] [1] [1] "d1"]]
  /\ SUMBTDataset.guid_turn StandIn.int "test-d1-2" = Ok 2
  /\ SUMBTDataset.guid_turn StandIn.int "test-d1-0" = Ok 0.
Proof. repeat split; reflexivity. Qed.

(** C2 fails on the code: the test that keeps a turn reads the turn index of
    the previous example.  With [max_turn_length = 1], dialogue [d1] keeps
    its turn 1 (only turn 0 is below the cap) and dialogue [d2], which
    follows a turn of index 2, loses its turn 0. *)
Theorem C2_cap_tests_previous_turn :
  SUMBTDataset.__init__ StandIn.tokenize StandIn.convert_tokens_to_ids StandIn.int
    [InputExample.mk "test-d1-0" "a" None ["none"] ["0"];
     InputExample.mk "test-d1-1" "b" None ["none"] ["0"];
     InputExample.mk "test-d1-2" "c" None ["none"] ["0"];
     InputExample.mk "test-d2-0" "d" None ["none"] ["0"]]
    [["none"; "east"]] 128 1
  = Ok [[InputFeatures.mk [1; 97; 1] [3; 0] [0] [0] "d1";
         InputFeatures.mk [1; 98; 1] [3; 0] [0] [0] "d1"];
        []].
Proof. reflexivity. Qed.

(** ** [SUMBTDataset.__getitem__] and [collate_fn] *)

Lemma foldl_max_ge (l : list nat) (x : nat) :
  (x <= foldl Nat.max x l)%nat /\ Forall (fun y => (y <= foldl Nat.max x l)%nat) l.
Proof.
  revert x. induction l as [|y l IH]; intros x; simpl; [by split|].
  destruct (IH (Nat.max x y)) as [H1 H2].
  split; [lia|]. constructor; [lia|done].
Qed.

Lemma py_max_ok (l : list nat) :
  l <> [] -> exists m, py_max l = Ok m /\ Forall (fun y => (y <= m)%nat) l.
Proof.
  destruct l as [|x l]; [done|]. intros _. eexists. split; [done|].
  destruct (foldl_max_ge l x). by constructor.
Qed.

Lemma foldl_max_max_list (l : list nat) (x : nat) :
  foldl Nat.max x l = (x `max` max_list l)%nat.
Proof.
  revert x. induction l as [|y l IH]; intros x; simpl; [lia|].
  rewrite IH. lia.
Qed.

Lemma py_max_max_list (l : list nat) :
  l <> [] -> py_max l = Ok (max_list l).
Proof.
  destruct l as [|x l]; [done|]. intros _. simpl.
  by rewrite foldl_max_max_list.
Qed.

Lemma torch_tensor_uniform (ll : list (list Z)) :
  uniform ll -> torch_tensor ll = Ok ll.
Proof.
  intros [n Hn]. destruct ll as [|r ll]; [done|]. unfold torch_tensor.
  rewrite (proj2 (forallb_forall _ _)); [done|].
  intros r' Hr'%list_elem_of_In. apply Nat.eqb_eq.
  rewrite Forall_forall in Hn.
  rewrite (Hn r'), (Hn r); [done|by left|done].
Qed.

Lemma fold_alter_lookup {A B : Type} (g : B -> A -> A) (srcs : list B)
    (init : list A) (k i : nat) :
  foldl (fun result j =>
           match srcs !! j with
           | Some src => alter (g src) j result
           | None => result
           end) init (seq 0 k) !! i
  = match srcs !! i with
    | Some src => if decide (i < k)%nat then g src <$> init !! i else init !! i
    | None => init !! i
    end.
Proof.
  induction k as [|k IH].
  - simpl. by destruct (srcs !! i).
  - rewrite seq_S, foldl_app. simpl.
    destruct (decide (i = k)) as [->|Hne].
    + destruct (srcs !! k) as [src|].
      * rewrite list_lookup_alter_eq, IH.
        rewrite decide_False by lia. by rewrite decide_True by lia.
      * by rewrite IH.
    + assert (forall l : list A,
                match srcs !! k with
                | Some src => alter (g src) k l
                | None => l
                end !! i = l !! i) as ->.
      { intros l. destruct (srcs !! k); [|done].
        by rewrite list_lookup_alter_ne. }
      rewrite IH. destruct (srcs !! i); [|done].
      destruct (decide (i < k)%nat), (decide (i < S k)%nat); done || lia.
Qed.

Lemma assign_block_replicate (max_len max_dim : nat) (pad : Z)
    (src : list (list Z)) :
  (length src <= max_len)%nat ->
  Collate.assign_block (replicate max_len (replicate max_dim pad)) src
  = pad_block max_len max_dim pad src.
Proof.
  intros Hlen. unfold Collate.assign_block, pad_block.
  rewrite drop_replicate. f_equal.
  replace max_len with (length src + (max_len - length src))%nat at 1 by lia.
  generalize (max_len - length src)%nat as extra.
  induction src as [|r src IH]; intros extra; simpl.
  - by destruct extra.
  - rewrite drop_replicate. f_equal. apply IH. simpl in Hlen. lia.
Qed.

Lemma padding_blocks (seq : list (list (list Z))) (pad : Z) :
  stackable seq ->
  exists max_len max_dim,
    Collate.padding seq pad = Ok (pad_block max_len max_dim pad <$> seq)
    /\ py_max (size0 <$> seq) = Ok max_len
    /\ Forall (fun t => (length t <= max_len)%nat
                        /\ Forall (fun r => (length r <= max_dim)%nat) t) seq.
Proof.
  intros [Hne Hall]. unfold Collate.padding.
  destruct (py_max_ok (size0 <$> seq)) as (max_len & Hml & Hlens).
  { by destruct seq. }
  destruct (comprehension_ok size1 seq) as (dims & Hdims & HF).
  { intros t Ht. rewrite Forall_forall in Hall.
    destruct (Hall t Ht) as [Htne _]. destruct t; [done|by eexists]. }
  destruct (py_max_ok dims) as (max_dim & Hmd & Hdle).
  { apply Forall2_length in HF. destruct seq, dims; done. }
  exists max_len, max_dim. rewrite Hml, Hdims. cbn [mbind res_bind].
  rewrite Hmd. cbn [mbind res_bind].
  assert (Forall (fun t => (length t <= max_len)%nat
                        /\ Forall (fun r => (length r <= max_dim)%nat) t) seq)
    as Hbounds.
  { rewrite Forall_forall. intros t Ht.
    apply list_elem_of_lookup in Ht as [i Hi]. split.
    - rewrite Forall_forall in Hlens. apply Hlens.
      apply list_elem_of_fmap. exists t. split; [done|].
      apply list_elem_of_lookup. by exists i.
    - destruct (Forall2_lookup_l _ _ _ _ _ HF Hi) as (d & Hd & Hsz).
      assert (d <= max_dim)%nat as Hdm.
      { rewrite Forall_forall in Hdle. apply Hdle.
        apply list_elem_of_lookup. by exists i. }
      rewrite Forall_forall in Hall.
      destruct (Hall t) as [_ [n Hn]].
      { apply list_elem_of_lookup. by exists i. }
      destruct t as [|r t]; [done|]. simpl in Hsz. injection Hsz as <-.
      assert (n = length r) as -> by (by inversion Hn).
      eapply Forall_impl; [exact Hn|]. simpl. intros r' ->. done. }
  split; [|done]. f_equal.
  apply list_eq. intros i.
  rewrite fold_alter_lookup, list_lookup_fmap.
  destruct (seq !! i) as [src|] eqn:Hi; simpl.
  - rewrite decide_True by (by eapply lookup_lt_Some).
    rewrite lookup_replicate_2 by (by eapply lookup_lt_Some). simpl.
    f_equal. apply assign_block_replicate.
    rewrite Forall_forall in Hbounds. apply Hbounds.
    apply list_elem_of_lookup. by exists i.
  - apply lookup_replicate_None. by apply lookup_ge_None.
Qed.

Lemma length_pad_block (T L : nat) (pad : Z) (src : list (list Z)) :
  (length src <= T)%nat -> length (pad_block T L pad src) = T.
Proof.
  intros H. unfold pad_block.
  rewrite length_app, length_fmap, length_replicate. lia.
Qed.




Lemma getitem_ok (features : list InputFeatures.t) :
  loadable features ->
  exists L,
    Forall (fun f => (length (InputFeatures.input_ids f) <= L)%nat) features
    /\ Collate.__getitem__ features
       = Ok (Collate.mk_item (token_rows L features)
               (InputFeatures.input_len <$> features)
               (InputFeatures.label_id <$> features)
               (InputFeatures.update <$> features)
               (InputFeatures.guid <$> features)).
Proof.
  intros (Hne & Hlen & Hlab & Hupd). unfold Collate.__getitem__.
  destruct (py_max_ok (length <$> (InputFeatures.input_ids <$> features)))
    as (L & HL & Hle).
  { by destruct features. }
  exists L. rewrite HL. cbn [mbind res_bind].
  rewrite <- list_fmap_compose in Hle. rewrite Forall_fmap in Hle.
  split; [done|].
  assert (((fun i => i ++ replicate (L - length i) 0)
             <$> (InputFeatures.input_ids <$> features))
          = token_rows L features) as ->.
  { unfold token_rows. by rewrite <- list_fmap_compose. }
  rewrite (torch_tensor_uniform (token_rows L features)).
  2:{ exists L. unfold token_rows. rewrite Forall_fmap.
      eapply Forall_impl; [exact Hle|]. simpl. intros f Hf.
      rewrite length_app, length_replicate. lia. }
  cbn [mbind res_bind].
  by rewrite !torch_tensor_uniform.
Qed.

Lemma token_rows_uniform L features :
  Forall (fun f => (length (InputFeatures.input_ids f) <= L)%nat) features ->
  uniform (token_rows L features).
Proof.
  intros Hle. exists L. unfold token_rows. rewrite Forall_fmap.
  eapply Forall_impl; [exact Hle|]. simpl. intros f Hf.
  rewrite length_app, length_replicate. lia.
Qed.

Lemma items_shape (dialogues : list (list InputFeatures.t))
    (items : list Collate.item_t) :
  Forall2 item_of dialogues items -> Forall loadable dialogues ->
  (size0 <$> (Collate.item_input_ids <$> items) = length <$> dialogues
   /\ size0 <$> (Collate.item_input_len <$> items) = length <$> dialogues
   /\ size0 <$> (Collate.item_label_ids <$> items) = length <$> dialogues
   /\ size0 <$> (Collate.item_update <$> items) = length <$> dialogues)
  /\ Forall (fun t => t <> [] /\ uniform t) (Collate.item_input_ids <$> items)
  /\ Forall (fun t => t <> [] /\ uniform t) (Collate.item_input_len <$> items)
  /\ Forall (fun t => t <> [] /\ uniform t) (Collate.item_label_ids <$> items)
  /\ Forall (fun t => t <> [] /\ uniform t) (Collate.item_update <$> items).
Proof.
  induction 1 as [|fs it dialogues items Hit HF IH]; intros Hload.
  - repeat split; constructor.
  - apply Forall_cons in Hload as [(Hne & Hlen & Hlab & Hupd) Hload].
    destruct (IH Hload) as ((E1 & E2 & E3 & E4) & F1 & F2 & F3 & F4).
    destruct Hit as (_ & L & Hle & ->). rewrite !fmap_cons.
    cbn [Collate.item_input_ids Collate.item_input_len Collate.item_label_ids
         Collate.item_update].
    rewrite E1, E2, E3, E4.
    split.
    { unfold size0, token_rows. by rewrite !length_fmap. }
    repeat split; constructor; try done; split;
      try (by destruct fs); by apply token_rows_uniform.
Qed.

Lemma stackable_fmap {A : Type} (f : A -> list (list Z)) (l : list A) :
  l <> [] -> Forall (fun t => t <> [] /\ uniform t) (f <$> l) ->
  stackable (f <$> l).
Proof. intros Hne HF. split; [by destruct l|done]. Qed.


(** The same with the number of rows made explicit: the largest number of
    turns of a dialogue of the batch. *)
Lemma load_batch_blocks_max (dialogues : list (list InputFeatures.t)) :
  dialogues <> [] -> Forall loadable dialogues ->
  let T := max_list (length <$> dialogues) in
  exists items L D S U,
    Forall2 item_of dialogues items
    /\ Collate.load_batch dialogues
       = Ok (Collate.mk_batch
               (pad_block T L 0 <$> (Collate.item_input_ids <$> items))
               (pad_block T D 0 <$> (Collate.item_input_len <$> items))
               (pad_block T S (-1) <$> (Collate.item_label_ids <$> items))
               (pad_block T U (-1) <$> (Collate.item_update <$> items))
               (Collate.item_guids <$> items)
               (length <$> dialogues))
    /\ Forall (fun t => Forall (fun r => (length r <= S)%nat) t)
         (Collate.item_label_ids <$> items).
Proof.
  intros Hne Hload T.
  destruct (comprehension_ok Collate.__getitem__ dialogues) as (items & Hitems & HF).
  { intros fs Hfs. rewrite Forall_forall in Hload.
    destruct (getitem_ok fs (Hload fs Hfs)) as (L & _ & HL). by eexists. }
  assert (Forall2 item_of dialogues items) as Hof.
  { clear -HF Hload.
    induction HF as [|fs it dialogues items Hit HF IH]; [constructor|].
    apply Forall_cons in Hload as [Hfs Hload].
    constructor; [|by apply IH]. split; [done|].
    destruct (getitem_ok fs Hfs) as (L & HLe & HL).
    exists L. split; [done|]. congruence. }
  destruct (items_shape _ _ Hof Hload) as ((E1 & E2 & E3 & E4) & F1 & F2 & F3 & F4).
  assert (items <> []) as Hine.
  { apply Forall2_length in Hof. destruct dialogues, items; done. }
  destruct (padding_blocks (Collate.item_input_ids <$> items) 0)
    as (T1 & L & P1 & M1 & B1); [by apply stackable_fmap|].
  destruct (padding_blocks (Collate.item_input_len <$> items) 0)
    as (T2 & D & P2 & M2 & B2); [by apply stackable_fmap|].
  destruct (padding_blocks (Collate.item_label_ids <$> items) (-1))
    as (T3 & S & P3 & M3 & B3); [by apply stackable_fmap|].
  destruct (padding_blocks (Collate.item_update <$> items) (-1))
    as (T4 & U & P4 & M4 & B4); [by apply stackable_fmap|].
  rewrite E1 in M1. rewrite E2 in M2. rewrite E3 in M3. rewrite E4 in M4.
  rewrite py_max_max_list in M1, M2, M3, M4 by (by destruct dialogues).
  injection M1 as <-. injection M2 as <-. injection M3 as <-.
  injection M4 as <-. fold T in P1, P2, P3, P4.
  exists items, L, D, S, U. split; [done|]. split.
  - unfold Collate.load_batch. rewrite Hitems. cbn [mbind res_bind].
    unfold Collate.collate_fn. rewrite P1, P2, P3, P4. cbn [mbind res_bind].
    f_equal. f_equal.
    transitivity (size0 <$> (Collate.item_input_ids <$> items)); [|done].
    by rewrite <- list_fmap_compose.
  - eapply Forall_impl; [exact B3|]. by intros t [_ ?].
Qed.


Lemma sample_batch_collated :
  Collate.load_batch Sample.dialogues = Ok Sample.batch.
Proof. reflexivity. Qed.


Lemma comprehension_total {A B : Type} (f : A -> res B) (g : A -> B) (xs : list A) :
  Forall (fun x => f x = Ok (g x)) xs -> comprehension f xs = Ok (g <$> xs).
Proof.
  induction 1 as [|x xs Hx _ IH]; [done|].
  cbn [comprehension]. rewrite Hx, IH. done.
Qed.

(** The slot-0 column of a padded block of label ids: the first label id
    of each real turn, then the sentinel. *)
Lemma slot0_pad_block (T S : nat) (fs : list InputFeatures.t) :
  fs <> [] -> labelled fs ->
  Forall (fun r => (length r <= S)%nat) (InputFeatures.label_id <$> fs) ->
  let blk := pad_block T S (-1) (InputFeatures.label_id <$> fs) in
  Forall (fun row => item row 0 = Ok (hd 0 row)) blk
  /\ length (filter (fun x => x <> -1) (hd 0 <$> blk)) = length fs
  /\ forall t row, blk !! t = Some row -> (t < length fs)%nat <-> hd 0 row <> -1.
Proof.
  intros Hne Hlab HS blk.
  assert (1 <= S)%nat as HS1.
  { destruct fs as [|f fs]; [done|].
    apply Forall_cons in Hlab as [(v & rest & Hv & _) _].
    apply Forall_cons in HS as [HS _]. rewrite Hv in HS. simpl in HS. lia. }
  assert (Forall (fun row => exists v rest, row = v :: rest /\ 0 <= v)
            ((fun r => r ++ replicate (S - length r) (-1))
               <$> (InputFeatures.label_id <$> fs))) as Hreal.
  { rewrite <- list_fmap_compose, Forall_fmap.
    eapply Forall_impl; [exact Hlab|]. simpl.
    intros f (v & rest & -> & Hv). by eexists _, _. }
  assert (Forall (fun row => exists rest, row = (-1) :: rest)
            (replicate (T - length (InputFeatures.label_id <$> fs))
               (replicate S (-1)))) as Hpad.
  { apply Forall_forall. intros row [-> Hn]%elem_of_replicate.
    destruct S; [lia|by eexists]. }
  unfold blk, pad_block. split; [|split].
  - apply Forall_app. split.
    + eapply Forall_impl; [exact Hreal|]. by intros row (v & rest & -> & _).
    + eapply Forall_impl; [exact Hpad|]. by intros row (rest & ->).
  - rewrite fmap_app, filter_app, length_app.
    rewrite <- (length_fmap InputFeatures.label_id fs).
    clear Hne Hlab HS blk.
    generalize dependent (InputFeatures.label_id <$> fs). intros src Hreal Hpad.
    assert (length (filter (fun x => x <> -1)
                      (hd 0 <$> replicate (T - length src) (replicate S (-1))))
            = 0%nat) as ->.
    { induction Hpad as [|row rows (rest & ->) _ IH]; [done|].
      rewrite fmap_cons. simpl. by rewrite filter_cons_False by (intros ?; done). }
    rewrite Nat.add_0_r. clear Hpad.
    induction src as [|r src IH]; [done|].
    rewrite !fmap_cons in *. apply Forall_cons in Hreal as [(v & rest & Hr & Hv) Hreal].
    rewrite Hr. cbn [hd length].
    rewrite filter_cons_True by lia. cbn [length]. f_equal. by apply IH.
  - intros t row Ht.
    destruct (decide (t < length fs)%nat) as [Hlt|Hge].
    + rewrite lookup_app_l in Ht by (by rewrite !length_fmap).
      rewrite Forall_forall in Hreal.
      destruct (Hreal row) as (v & rest & -> & Hv).
      { apply list_elem_of_lookup. by exists t. }
      simpl. split; [lia|done].
    + rewrite lookup_app_r in Ht by (rewrite !length_fmap; lia).
      rewrite Forall_forall in Hpad.
      destruct (Hpad row) as (rest & ->).
      { apply list_elem_of_lookup. by eexists. }
      simpl. split; [lia|done].
Qed.

Lemma items_label_ids (dialogues : list (list InputFeatures.t))
    (items : list Collate.item_t) :
  Forall2 item_of dialogues items ->
  Collate.item_label_ids <$> items
  = (fun fs => InputFeatures.label_id <$> fs) <$> dialogues.
Proof.
  induction 1 as [|fs it dialogues items (_ & L & _ & ->) _ IH]; [done|].
  rewrite !fmap_cons. by rewrite IH.
Qed.

(** C4: the loader turns every non-empty batch of loadable dialogues whose
    features carry label ids (indices of the ontology lists, so not
    negative, and at least one slot) into a batch whose [label_ids] has one
    block per dialogue, every block with [T] rows, [T] the largest of
    [num_turns]; for every dialogue [b] and every turn [t < T] the entry
    [label_ids[b, t, 0]] exists, and [t < num_turns[b]] exactly when it is
    not -1; hence the count of entries of [label_ids[:, :, 0]] other than
    -1 is the sum of the turn counts. *)
Theorem C4_turn_validity (dialogues : list (list InputFeatures.t)) :
  dialogues <> [] -> Forall loadable dialogues -> Forall labelled dialogues ->
  exists batch,
    Collate.load_batch dialogues = Ok batch
    /\ Collate.num_turns_list batch = length <$> dialogues
    /\ length (Collate.label_ids batch) = length dialogues
    /\ (let T := max_list (Collate.num_turns_list batch) in
        forall b n,
          Collate.num_turns_list batch !! b = Some n ->
          (n <= T)%nat
          /\ exists blk,
               Collate.label_ids batch !! b = Some blk
               /\ length blk = T
               /\ forall t, (t < T)%nat ->
                    exists row v,
                      blk !! t = Some row /\ item row 0 = Ok v
                      /\ ((t < n)%nat <-> v <> -1))
    /\ Main.nb_eval_ex (Collate.label_ids batch)
       = Ok (sum_list (Collate.num_turns_list batch)).
Proof.
  intros Hne Hload Hlab.
  destruct (load_batch_blocks_max dialogues Hne Hload)
    as (items & L & D & S & U & Hof & Hbatch & HS).
  eexists. split; [exact Hbatch|]. split; [done|].
  cbn [Collate.label_ids Collate.num_turns_list].
  rewrite (items_label_ids _ _ Hof) in *.
  rewrite <- list_fmap_compose.
  set (T := max_list (length <$> dialogues)) in *.
  assert (Forall (fun fs =>
            let blk := pad_block T S (-1) (InputFeatures.label_id <$> fs) in
            Forall (fun row => item row 0 = Ok (hd 0 row)) blk
            /\ length (filter (fun x => x <> -1) (hd 0 <$> blk)) = length fs
            /\ forall t row, blk !! t = Some row ->
                 (t < length fs)%nat <-> hd 0 row <> -1) dialogues) as Hblocks.
  { rewrite Forall_forall. intros fs Hfs.
    rewrite Forall_forall in Hload, Hlab.
    apply slot0_pad_block; [by destruct (Hload fs Hfs)|by apply Hlab|].
    rewrite Forall_fmap, Forall_forall in HS. by apply (HS fs). }
  clear Hbatch Hof HS Hload Hlab Hne.
  split; [by rewrite length_fmap|]. split.
  - intros b n Hn. rewrite list_lookup_fmap in Hn.
    destruct (dialogues !! b) as [fs|] eqn:Hfs; [|done].
    simpl in Hn. injection Hn as <-.
    assert (fs ∈ dialogues) as Hin by (apply list_elem_of_lookup; by exists b).
    assert (length fs <= T)%nat as HT.
    { apply max_list_elem_of_le, list_elem_of_fmap. by exists fs. }
    split; [done|].
    rewrite Forall_forall in Hblocks.
    destruct (Hblocks fs Hin) as (Hitem & _ & Hiff).
    assert (length (pad_block T S (-1) (InputFeatures.label_id <$> fs)) = T)
      as Hrows by (apply length_pad_block; by rewrite length_fmap).
    eexists. split; [by rewrite list_lookup_fmap, Hfs|]. split; [done|].
    intros t Ht.
    destruct (lookup_lt_is_Some_2
                (pad_block T S (-1) (InputFeatures.label_id <$> fs)) t)
      as [row Hrow]; [by rewrite Hrows|].
    exists row, (hd 0 row). split; [done|]. split; [|by apply Hiff].
    rewrite Forall_forall in Hitem. apply Hitem.
    apply list_elem_of_lookup. by exists t.
  - unfold Main.nb_eval_ex, Main.slot0.
    rewrite (comprehension_total _ (hd 0)).
    2:{ apply Forall_concat. rewrite Forall_fmap.
        eapply Forall_impl; [exact Hblocks|]. by intros fs (? & _). }
    cbn [mbind res_bind]. f_equal.
    clearbody T.
    induction Hblocks as [|fs dialogues (_ & Hcount & _) _ IH]; [done|].
    rewrite !fmap_cons. cbn [concat sum_list sum_list_with compose].
    rewrite fmap_app, filter_app, length_app. rewrite Hcount.
    f_equal. exact IH.
Qed.

Lemma C4_turn_validity_witness :
  exists batch,
    Collate.load_batch Sample.dialogues = Ok batch
    /\ (exists blk row,
          Collate.label_ids batch !! 1%nat = Some blk /\ length blk = 2%nat
          /\ blk !! 1%nat = Some row /\ item row 0 = Ok (-1))
    /\ Main.nb_eval_ex (Collate.label_ids batch) = Ok 3%nat.
Proof.
  destruct (C4_turn_validity Sample.dialogues)
    as (batch & H1 & H2 & _ & H3 & H4).
  - discriminate.
  - apply Forall_cons_2; [|apply Forall_cons_2; [|apply Forall_nil_2]];
      (split; [discriminate|]); repeat split; eexists; repeat constructor.
  - repeat (apply Forall_cons_2 || apply Forall_nil_2);
      eexists _, _; (split; [reflexivity|lia]).
  - exists batch. split; [exact H1|]. split.
    + rewrite H2 in H3.
      destruct (H3 1%nat 1%nat eq_refl) as (_ & blk & Hblk & Hlen & Hrows).
      destruct (Hrows 1%nat) as (row & v & Hrow & Hv & Hiff);
        [vm_compute; lia|].
      exists blk, row. repeat (split; [done|]).
      destruct (decide (v = -1)) as [->|Hne]; [done|].
      apply Hiff in Hne. lia.
    + rewrite H4, H2. reflexivity.
Defined.

(** ** The prediction writer of [main] *)

Lemma enumerate_snoc {A : Type} (l : list A) (x : A) :
  enumerate (l ++ [x]) = enumerate l ++ [(length l, x)].
Proof.
  unfold enumerate. rewrite length_app. simpl.
  rewrite seq_app. simpl.
  rewrite zip_with_app by (by rewrite length_seq). done.
Qed.

Lemma pretty_N_char_no_dash (x : N) : pretty_N_char x <> "-"%char.
Proof. unfold pretty_N_char. by repeat case_match. Qed.

Lemma pretty_N_go_dash_free (x : N) (s : string) :
  dash_free s -> dash_free (pretty_N_go x s).
Proof.
  revert s. induction (N.lt_wf_0 x) as [x _ IH]; intros s Hs.
  assert (x = 0 \/ 0 < x)%N as [->|Hx] by lia.
  - by rewrite pretty_N_go_0.
  - rewrite pretty_N_go_step by done. apply IH.
    + by apply N.div_lt.
    + split; [apply pretty_N_char_no_dash|done].
Qed.

Lemma pretty_nat_dash_free (n : nat) : dash_free (pretty n).
Proof.
  unfold pretty, pretty_nat, pretty, pretty_N.
  case_decide; [done|]. by apply pretty_N_go_dash_free.
Qed.

Lemma dash_free_no_separator (g d : string) : ~ dash_free (g +:+ "-" +:+ d).
Proof. induction g as [|c g IH]; simpl; [by intros [? _]|by intros [_ ?]]. Qed.

(** The key determines the guid and the turn: the last dash of the key
    separates them. *)
Lemma separator_inj (g1 g2 d1 d2 : string) :
  dash_free d1 -> dash_free d2 ->
  g1 +:+ "-" +:+ d1 = g2 +:+ "-" +:+ d2 -> g1 = g2 /\ d1 = d2.
Proof.
  intros H1 H2. revert g2.
  induction g1 as [|c1 g1 IH]; intros [|c2 g2] Heq.
  - change (String "-" d1 = String "-" d2) in Heq. by injection Heq as ->.
  - change (String "-" d1 = String c2 (g2 +:+ "-" +:+ d2)) in Heq.
    injection Heq as _ Heq. subst d1.
    destruct (dash_free_no_separator g2 d2 H1).
  - change (String c1 (g1 +:+ "-" +:+ d1) = String "-" d2) in Heq.
    injection Heq as _ Heq. subst d2.
    destruct (dash_free_no_separator g1 d1 H2).
  - change (String c1 (g1 +:+ "-" +:+ d1) = String c2 (g2 +:+ "-" +:+ d2))
      in Heq.
    injection Heq as -> Heq. by destruct (IH g2 Heq) as [-> ->].
Qed.

Lemma prediction_key_inj guid1 guid2 t1 t2 :
  Main.prediction_key guid1 t1 = Main.prediction_key guid2 t2 ->
  guid1 = guid2 /\ t1 = t2.
Proof.
  unfold Main.prediction_key. intros H.
  apply separator_inj in H as [-> H]; try apply pretty_nat_dash_free.
  split; [done|]. by apply pretty_nat_inj in H.
Qed.

Section PredictionFacts.
Variable slot_meta : list string.
Variable ontology : gmap string (list string).
Import Main.

Lemma turn_state_loop (pairs : list (string * Z)) (st st' : list string) :
  for_each
    (fun state '(s, p) =>
       v ← decode ontology s p;
       if decide (v <> "none") then Ok (state ++ [s +:+ "-" +:+ v])
       else Ok state) pairs st = Ok st' ->
  exists values,
    Forall2 (fun sp v => decode ontology sp.1 sp.2 = Ok v) pairs values
    /\ st' = st ++ slot_strings (zip pairs.*1 values).
Proof.
  revert st. induction pairs as [|[s p] pairs IH]; intros st; cbn [for_each].
  - intros [= <-]. exists []. split; [constructor|]. by rewrite app_nil_r.
  - intros H. apply bind_ok_inv in H as (st1 & Hbody & H).
    apply bind_ok_inv in Hbody as (v & Hv & Hbody).
    destruct (IH _ H) as (values & HF & ->).
    exists (v :: values). split; [by constructor|].
    unfold slot_strings. rewrite fmap_cons. cbn [zip zip_with fst].
    case_decide; simplify_eq.
    + rewrite filter_cons_True by done. rewrite fmap_cons.
      rewrite <- app_assoc. reflexivity.
    + rewrite filter_cons_False; [done|]. simpl. tauto.
Qed.

Lemma turn_state_entry (pred : list Z) (state : list string) :
  turn_state slot_meta ontology pred = Ok state ->
  turn_entry slot_meta ontology pred state.
Proof.
  intros H. apply turn_state_loop in H as (values & HF & ->).
  by exists values.
Qed.

Lemma turn_state_loop_ok (pairs : list (string * Z)) (st : list string) :
  Forall (fun sp => exists v, decode ontology sp.1 sp.2 = Ok v) pairs ->
  exists st',
    for_each
      (fun state '(s, p) =>
         v ← decode ontology s p;
         if decide (v <> "none") then Ok (state ++ [s +:+ "-" +:+ v])
         else Ok state) pairs st = Ok st'.
Proof.
  revert st. induction pairs as [|[s p] pairs IH]; intros st Hall;
    cbn [for_each]; [by eexists|].
  apply Forall_cons in Hall as [(v & Hv) Hall]. simpl in Hv. rewrite Hv.
  cbn [mbind res_bind]. case_decide; by apply IH.
Qed.

Lemma turn_state_ok (pred : list Z) :
  Forall (fun sp => exists v, decode ontology sp.1 sp.2 = Ok v)
    (zip slot_meta pred) ->
  exists state, turn_state slot_meta ontology pred = Ok state.
Proof. apply turn_state_loop_ok. Qed.

Lemma states_loop (rows : list (list Z)) (acc states : list (list string)) :
  for_each
    (fun states pred =>
       state ← turn_state slot_meta ontology pred; Ok (states ++ [state]))
    rows acc = Ok states ->
  exists new,
    states = acc ++ new
    /\ Forall2 (fun pred state => turn_state slot_meta ontology pred = Ok state)
         rows new.
Proof.
  revert acc. induction rows as [|pred rows IH]; intros acc; cbn [for_each].
  - intros [= <-]. exists []. split; [by rewrite app_nil_r|constructor].
  - intros H. apply bind_ok_inv in H as (acc1 & Hbody & H).
    apply bind_ok_inv in Hbody as (state & Hstate & [= <-]).
    destruct (IH _ H) as (new & -> & HF).
    exists (state :: new). split; [by rewrite <- app_assoc|by constructor].
Qed.

Lemma states_loop_ok (rows : list (list Z)) (acc : list (list string)) :
  Forall (fun pred => exists state, turn_state slot_meta ontology pred = Ok state)
    rows ->
  exists states,
    for_each
      (fun states pred =>
         state ← turn_state slot_meta ontology pred; Ok (states ++ [state]))
      rows acc = Ok states.
Proof.
  revert acc. induction rows as [|pred rows IH]; intros acc Hall;
    cbn [for_each]; [by eexists|].
  apply Forall_cons in Hall as [(state & Hstate) Hall]. rewrite Hstate.
  cbn [mbind res_bind]. by apply IH.
Qed.

(** Writing the states of one dialogue into the dictionary. *)
Lemma insert_states (guid : string) (states : list (list string))
    (m : gmap string (list string)) :
  let m' := foldl
              (fun predictions '(tid, state) =>
                 <[prediction_key guid tid := state]> predictions)
              m (enumerate states) in
  (forall t st, states !! t = Some st -> m' !! prediction_key guid t = Some st)
  /\ (forall k st, m' !! k = Some st ->
        m !! k = Some st
        \/ exists t, states !! t = Some st /\ k = prediction_key guid t)
  /\ (forall k, is_Some (m !! k) -> is_Some (m' !! k)).
Proof.
  induction states as [|x states IH] using rev_ind; cbn zeta.
  - simpl. split; [done|]. split; [by left|done].
  - rewrite enumerate_snoc, foldl_app. cbn [foldl].
    destruct IH as (IH1 & IH2 & IH3). split; [|split].
    + intros t st Ht.
      destruct (decide (t = length states)) as [->|Hne].
      * rewrite lookup_app_r, Nat.sub_diag in Ht by lia.
        simpl in Ht. simplify_eq. apply lookup_insert_eq.
      * rewrite lookup_insert_ne by (by intros [_ ?]%prediction_key_inj).
        apply IH1. rewrite lookup_app_l in Ht; [done|].
        apply lookup_lt_Some in Ht. rewrite length_app in Ht. simpl in Ht. lia.
    + intros k st Hk.
      destruct (decide (k = prediction_key guid (length states))) as [->|Hne].
      * rewrite lookup_insert_eq in Hk. simplify_eq. right.
        exists (length states). split; [|done].
        by rewrite lookup_app_r, Nat.sub_diag by lia.
      * rewrite lookup_insert_ne in Hk by done.
        destruct (IH2 k st Hk) as [?|(t & Ht & ->)]; [by left|right].
        exists t. split; [|done]. by apply lookup_app_l_Some.
    + intros k Hk.
      destruct (decide (k = prediction_key guid (length states))) as [->|Hne].
      * rewrite lookup_insert_eq. by eexists.
      * rewrite lookup_insert_ne by done. by apply IH3.
Qed.
Lemma dialogue_at_fun guids pred_slot num_turns i guid rows n guid' rows' n' :
  dialogue_at guids pred_slot num_turns i guid rows n ->
  dialogue_at guids pred_slot num_turns i guid' rows' n' ->
  guid = guid' /\ rows = rows' /\ n = n'.
Proof.
  intros ((g & Hg & Hg0) & Hr & Hn) ((g' & Hg' & Hg0') & Hr' & Hn').
  simplify_eq. done.
Qed.

Lemma predict_dialogue_spec guids pred_slot num_turns
    (m m' : gmap string (list string)) (i : nat) :
  predict_dialogue slot_meta ontology guids pred_slot num_turns m i = Ok m' ->
  exists guid rows n states,
    dialogue_at guids pred_slot num_turns i guid rows n
    /\ Forall2 (fun pred state => turn_state slot_meta ontology pred = Ok state)
         (take n rows) states
    /\ m' = foldl
              (fun predictions '(tid, state) =>
                 <[prediction_key guid tid := state]> predictions)
              m (enumerate states).
Proof.
  unfold predict_dialogue, item. intros H.
  destruct (guids !! i) as [guids_i|] eqn:Hg; [|done].
  cbn [mbind res_bind] in H.
  destruct (guids_i !! 0%nat) as [guid|] eqn:Hg0; [|done].
  cbn [mbind res_bind] in H.
  destruct (pred_slot !! i) as [rows|] eqn:Hr; [|done].
  cbn [mbind res_bind] in H.
  destruct (num_turns !! i) as [n|] eqn:Hn; [|done].
  cbn [mbind res_bind] in H.
  apply bind_ok_inv in H as (states & Hstates & [= <-]).
  apply states_loop in Hstates as (new & -> & HF).
  exists guid, rows, n, new. split; [|done].
  split; [by exists guids_i|done].
Qed.

Lemma predict_dialogue_ok guids pred_slot num_turns
    (m : gmap string (list string)) (i : nat) guid rows n :
  dialogue_at guids pred_slot num_turns i guid rows n ->
  decodable slot_meta ontology rows n ->
  exists m', predict_dialogue slot_meta ontology guids pred_slot num_turns m i
             = Ok m'.
Proof.
  intros ((g & Hg & Hg0) & Hr & Hn) Hdec.
  unfold predict_dialogue, item. rewrite Hg. cbn [mbind res_bind].
  rewrite Hg0. cbn [mbind res_bind]. rewrite Hr, Hn. cbn [mbind res_bind].
  destruct (states_loop_ok (take n rows) []) as (states & ->); [|by eexists].
  apply Forall_forall. intros pred Hpred.
  apply list_elem_of_lookup in Hpred as [t Ht].
  apply lookup_take_Some in Ht as [Ht Hlt].
  apply turn_state_ok. by eapply Hdec.
Qed.

Lemma predict_loop guids pred_slot num_turns (indices : list nat)
    (m m' : gmap string (list string)) :
  for_each (predict_dialogue slot_meta ontology guids pred_slot num_turns)
    indices m = Ok m' ->
  (forall k st, m' !! k = Some st ->
     m !! k = Some st
     \/ exists i guid rows n t pred,
          i ∈ indices /\ dialogue_at guids pred_slot num_turns i guid rows n
          /\ (t < n)%nat /\ rows !! t = Some pred
          /\ k = prediction_key guid t
          /\ turn_entry slot_meta ontology pred st)
  /\ (forall i guid rows n t pred,
        i ∈ indices -> dialogue_at guids pred_slot num_turns i guid rows n ->
        (t < n)%nat -> rows !! t = Some pred ->
        is_Some (m' !! prediction_key guid t))
  /\ (forall k, is_Some (m !! k) -> is_Some (m' !! k))
  /\ (NoDup indices ->
      forall i guid rows n t pred,
        i ∈ indices -> dialogue_at guids pred_slot num_turns i guid rows n ->
        (t < n)%nat -> rows !! t = Some pred ->
        (forall j g r n', j ∈ indices -> j <> i ->
           dialogue_at guids pred_slot num_turns j g r n' -> g <> guid) ->
        exists st, m' !! prediction_key guid t = Some st
                   /\ turn_entry slot_meta ontology pred st).
Proof.
  revert m. induction indices as [|i indices IH]; intros m; cbn [for_each].
  - intros [= <-]. split; [by left|]. split; [|split; [done|]].
    + intros i guid rows n t pred Hi. by apply elem_of_nil in Hi.
    + intros _ i guid rows n t pred Hi. by apply elem_of_nil in Hi.
  - intros H. apply bind_ok_inv in H as (m1 & Hbody & H).
    destruct (IH _ H) as (IH1 & IH2 & IH3 & IH4).
    apply predict_dialogue_spec in Hbody
      as (guid & rows & n & states & Hat & HF & ->).
    destruct (insert_states guid states m) as (I1 & I2 & I3).
    split; [|split; [|split]].
    + intros k st Hk.
      destruct (IH1 k st Hk) as [Hm1|(j & g & r & n' & t & pred & Hj & Hrest)].
      * destruct (I2 k st Hm1) as [?|(t & Ht & ->)]; [by left|right].
        destruct (Forall2_lookup_r _ _ _ _ _ HF Ht) as (pred & Hpred & Hturn).
        apply lookup_take_Some in Hpred as [Hpred Hlt].
        exists i, guid, rows, n, t, pred.
        split; [by left|]. repeat (split; [done|]).
        by apply turn_state_entry.
      * right. exists j, g, r, n', t, pred. split; [by right|done].
    + intros j g r n' t pred Hj Hat' Hlt Hpred.
      apply elem_of_cons in Hj as [->|Hj]; [|by eapply IH2].
      destruct (dialogue_at_fun _ _ _ _ _ _ _ _ _ _ Hat Hat') as (<- & <- & <-).
      apply IH3.
      assert (take n rows !! t = Some pred) as Htake
        by (by apply lookup_take_Some).
      destruct (Forall2_lookup_l _ _ _ _ _ HF Htake) as (st & Hst & _).
      rewrite (I1 t st Hst). by eexists.
    + intros k Hk. by apply IH3, I3.
    + intros [Hfresh Hnodup]%NoDup_cons j g r n' t pred Hj Hat' Hlt Hpred Hother.
      apply elem_of_cons in Hj as [->|Hj].
      * destruct (dialogue_at_fun _ _ _ _ _ _ _ _ _ _ Hat Hat') as (<- & <- & <-).
        assert (take n rows !! t = Some pred) as Htake
          by (by apply lookup_take_Some).
        destruct (Forall2_lookup_l _ _ _ _ _ HF Htake) as (st & Hst & Hturn).
        pose proof (I1 t st Hst) as Hm1.
        destruct (IH3 (prediction_key guid t)) as [st' Hst'];
          [by rewrite Hm1|].
        exists st'. split; [done|].
        destruct (IH1 _ _ Hst')
          as [Hsame|(j & g & r' & n' & t' & pred' & Hj & Hat'' & _ & _ & Hkey & _)].
        -- rewrite Hm1 in Hsame. simplify_eq. by apply turn_state_entry.
        -- apply prediction_key_inj in Hkey as [<- _].
           assert (j <> i) as Hne by (by intros ->).
           exfalso. by apply (Hother j guid r' n'); [right|..].
      * apply (IH4 Hnodup j g r n' t pred Hj Hat' Hlt Hpred).
        intros j' g' r' n'' Hj' Hne. apply Hother; [by right|done].
Qed.

(** C8: when every dialogue of the batch has a guid, predicted rows and a
    turn count, and every slot of every turn up to the turn count decodes
    in the ontology, the writer returns a dictionary that has an entry
    under ["{guid}-{t}"] for every dialogue and every [t < num_turns[i]]
    (the entry of that very turn when no other dialogue of the batch has
    the same guid), and whose every new entry is the entry of such a turn:
    its key is ["{guid}-{t}"] with [t < num_turns[i]], so no turn from
    [num_turns[i]] on is written, and its value lists ["{slot}-{value}"],
    in slot order, for exactly the slots whose decoded value is not
    ["none"]. *)
Theorem C8_predictions_per_valid_turn (batch : Collate.batch_t)
    (pred_slot : list (list (list Z)))
    (predictions : gmap string (list string)) :
  let guids := Collate.guids_list batch in
  let num_turns := Collate.num_turns_list batch in
  (forall i, (i < length (Collate.input_ids batch))%nat ->
     exists guid rows n,
       dialogue_at guids pred_slot num_turns i guid rows n
       /\ decodable slot_meta ontology rows n) ->
  exists predictions',
    predict_batch slot_meta ontology batch pred_slot predictions
    = Ok predictions'
    /\ (forall i guid rows n t pred,
          (i < length (Collate.input_ids batch))%nat ->
          dialogue_at guids pred_slot num_turns i guid rows n ->
          (t < n)%nat -> rows !! t = Some pred ->
          is_Some (predictions' !! prediction_key guid t)
          /\ ((forall j g r n', (j < length (Collate.input_ids batch))%nat ->
                  j <> i -> dialogue_at guids pred_slot num_turns j g r n' ->
                  g <> guid) ->
              exists st, predictions' !! prediction_key guid t = Some st
                         /\ turn_entry slot_meta ontology pred st))
    /\ (forall k st, predictions' !! k = Some st ->
          predictions !! k = Some st
          \/ exists i guid rows n t pred,
               (i < length (Collate.input_ids batch))%nat
               /\ dialogue_at guids pred_slot num_turns i guid rows n
               /\ (t < n)%nat /\ rows !! t = Some pred
               /\ k = prediction_key guid t
               /\ turn_entry slot_meta ontology pred st).
Proof.
  intros guids num_turns Hvalid. unfold predict_batch. fold guids num_turns.
  assert (exists predictions',
            for_each (predict_dialogue slot_meta ontology guids pred_slot num_turns)
              (seq 0 (length (Collate.input_ids batch))) predictions
            = Ok predictions') as (predictions' & Hrun).
  { assert (Forall (fun i => (i < length (Collate.input_ids batch))%nat)
              (seq 0 (length (Collate.input_ids batch)))) as Hidx.
    { apply Forall_forall. intros i Hi%elem_of_seq. lia. }
    revert Hidx. generalize (seq 0 (length (Collate.input_ids batch))).
    intros indices. revert predictions.
    induction indices as [|i indices IH]; intros predictions Hidx;
      cbn [for_each]; [by eexists|].
    apply Forall_cons in Hidx as [Hi Hidx].
    destruct (Hvalid i Hi) as (guid & rows & n & Hat & Hdec).
    destruct (predict_dialogue_ok _ _ _ predictions i _ _ _ Hat Hdec)
      as (m1 & ->).
    cbn [mbind res_bind]. by apply IH. }
  exists predictions'. split; [done|].
  destruct (predict_loop _ _ _ _ _ _ Hrun) as (H1 & H2 & _ & H4).
  split.
  - intros i guid rows n t pred Hi Hat Hlt Hpred.
    assert (i ∈ seq 0 (length (Collate.input_ids batch))) as Hin
      by (apply elem_of_seq; lia).
    split; [by eapply H2|].
    intros Hother. apply (H4 (NoDup_seq _ _) i guid rows n t pred); try done.
    intros j g r n' Hj%elem_of_seq. apply Hother. lia.
  - intros k st Hk.
    destruct (H1 k st Hk) as [?|(i & g & r & n & t & pred & Hi & Hrest)];
      [by left|right].
    exists i, g, r, n, t, pred. split; [|done].
    apply elem_of_seq in Hi. lia.
Qed.
End PredictionFacts.

Lemma C8_predictions_per_valid_turn_witness :
  exists predictions',
    Main.predict_batch Sample.slot_meta Sample.ontology Sample.batch
      Sample.pred_slot ∅ = Ok predictions'
    /\ predictions' !! "d1-0" = Some ["area-east"]
    /\ predictions' !! "d1-1" = Some ["area-west"; "food-thai"]
    /\ predictions' !! "d2-0" = Some []
    /\ predictions' !! "d2-1" = None.
Proof.
  destruct (C8_predictions_per_valid_turn Sample.slot_meta Sample.ontology
              Sample.batch Sample.pred_slot ∅)
    as (predictions' & Hrun & _).
  - intros i Hi. simpl in Hi.
    destruct i as [|[|i]]; [| |lia].
    + exists "d1", [[1; 0]; [2; 1]], 2%nat. split.
      * split; [by exists ["d1"; "d1"]|done].
      * intros t pred Ht Hpred. destruct t as [|[|t]]; [| |lia];
          simpl in Hpred; simplify_eq;
          repeat constructor; eexists; vm_compute; reflexivity.
    + exists "d2", [[0; 0]; [1; 1]], 1%nat. split.
      * split; [by exists ["d2"]|done].
      * intros t pred Ht Hpred. destruct t as [|t]; [|lia].
        simpl in Hpred. simplify_eq.
        repeat constructor; eexists; vm_compute; reflexivity.
  - exists predictions'. split; [exact Hrun|].
    vm_compute in Hrun. injection Hrun as <-.
    repeat split; vm_compute; reflexivity.
Defined.

(** ** The features the constructor builds meet what the collator needs *)

Section PipelineFacts.
Variable tokenize : string -> list string.
Variable convert_tokens_to_ids : list string -> list Z.
Variable int : string -> option Z.
Import SUMBTDataset.

Lemma encode_turn_two_lengths msl text_a text_b tokens input_len :
  encode_turn tokenize msl text_a text_b = Ok (tokens, input_len) ->
  length input_len = 2%nat.
Proof.
  unfold encode_turn. intros H.
  apply bind_ok_inv in H as ([ta [[|t tb]|]] & _ & H); by simplify_eq.
Qed.

Lemma label_ids_of_index label_map (label : list string) (ids : list Z) :
  label_ids_of label_map label = Ok ids ->
  Forall (fun v => 0 <= v) ids /\ length ids = length label.
Proof.
  unfold label_ids_of. intros H%comprehension_inv. split.
  - clear -H. induction H as [|[i l] v pairs ids Hv _ IH]; constructor; [|done].
    apply bind_ok_inv in Hv as (d & _ & Hv).
    apply bind_ok_inv in Hv as (k & _ & [= <-]). lia.
  - apply Forall2_length in H. rewrite <- H. unfold enumerate.
    rewrite length_zip_with, length_seq. lia.
Qed.

(** With [S >= 1] labels and [S] update flags in every example, every
    dialogue the constructor returns has label ids that are indices, and
    every dialogue that kept a turn is one [__getitem__] can load. *)
Lemma init_features_well_formed (examples : list InputExample.t)
    (label_list : list (list string)) (msl mtl : Z) (S : nat)
    (all_features : list (list InputFeatures.t)) :
  (1 <= S)%nat ->
  Forall (fun example => length (InputExample.label example) = S
                         /\ length (InputExample.update example) = S)
    examples ->
  __init__ tokenize convert_tokens_to_ids int examples label_list msl mtl
  = Ok all_features ->
  Forall (fun features => labelled features
                          /\ (features <> [] -> loadable features))
    all_features.
Proof.
  intros HS Hex H. unfold __init__ in H.
  apply bind_ok_inv in H as (max_turn & _ & H).
  apply bind_ok_inv in H as ([[af fs] prev] & Hloop & H). simplify_eq.
  destruct (init_loop_order _ _ _ _ _ _ _ _ _ _ _ _ _ Hloop)
    as (kept & new & Hsub & HF & Hcat).
  simpl in Hcat. subst new.
  assert (Forall (fun f => length (InputFeatures.input_len f) = 2%nat
                           /\ length (InputFeatures.label_id f) = S
                           /\ length (InputFeatures.update f) = S
                           /\ Forall (fun v => 0 <= v) (InputFeatures.label_id f))
            (concat (af ++ [fs]))) as Hall.
  { assert (Forall (fun example => length (InputExample.label example) = S
                         /\ length (InputExample.update example) = S) kept)
      as Hkept.
    { rewrite Forall_forall in Hex |- *. intros example Hin. apply Hex.
      by eapply elem_of_sublist. }
    clear -HF Hkept.
    induction HF as [|example f kept fs' Hf _ IH]; [constructor|].
    apply Forall_cons in Hkept as [[Hl Hu] Hkept].
    constructor; [|by apply IH].
    destruct Hf as (tokens & input_len & Henc & _ & <- & Hlab & Hupd & _).
    apply label_ids_of_index in Hlab as [Hpos Hlen].
    apply comprehension_inv, Forall2_length in Hupd.
    split; [by eapply encode_turn_two_lengths|]. split; [lia|].
    split; [lia|done]. }
  apply Forall_concat in Hall.
  eapply Forall_impl; [exact Hall|]. simpl. intros features Hfs. split.
  - eapply Forall_impl; [exact Hfs|]. simpl.
    intros f (_ & Hlen & _ & Hpos).
    destruct (InputFeatures.label_id f) as [|v rest]; [simpl in Hlen; lia|].
    exists v, rest. split; [done|]. by apply Forall_cons in Hpos as [? _].
  - intros Hne. split; [done|].
    repeat split; eexists; rewrite Forall_fmap;
      (eapply Forall_impl; [exact Hfs|]); simpl; intros f (? & ? & ? & _);
      eassumption.
Qed.
End PipelineFacts.

(** * Further properties of the code *)

(** ** [_truncate_seq_pair]: negative budgets and the final lengths *)

Lemma prefix_take_length {A : Type} (l' l : list A) :
  l' `prefix_of` l -> l' = take (length l') l.
Proof. intros [k ->]. by rewrite take_app_length. Qed.

Section TruncateMore.
Context {T : Type}.
Import Truncate.
Implicit Types (a b : list T) (m : Z).

(** With a negative budget the loop can never stop normally: it pops
    until both lists are empty and the next [pop] raises. *)
Theorem truncate_negative_budget_raises m a b :
  m < 0 -> _truncate_seq_pair a b m = Some (Raise IndexError).
Proof. intros Hm. apply truncate_loop_negative; [done|lia]. Qed.

Lemma half_up_bounds (m : Z) :
  2 * ((m + 1) / 2) <= m + 1 < 2 * ((m + 1) / 2) + 2.
Proof. Z.div_mod_to_equations. lia. Qed.

Lemma truncate_loop_lengths fuel m a b a' b' :
  0 <= m ->
  while_true (truncate_body m) fuel (a, b) = Some (Ok (a', b')) ->
  Z.of_nat (length a')
  = if decide (Z.of_nat (length a + length b) <= m) then Z.of_nat (length a)
    else final_len_a m (Z.of_nat (length a)) (Z.of_nat (length b)).
Proof.
  intros Hm. revert a b.
  induction fuel as [|fuel IH]; intros a b; [done|].
  cbn [while_true].
  destruct (truncate_body_cases m a b)
    as [[Hle Hb]|[(Hgt & Hlt & Hb)|[(Hgt & Hge & Hne & Hb)|(_ & _ & _ & Hb)]]];
    rewrite Hb; [| | |done].
  - intros [= <- <-]. by rewrite decide_True.
  - intros Hw. apply IH in Hw. rewrite Hw.
    rewrite length_removelast'. unfold final_len_a.
    pose proof (half_up_bounds m). repeat case_decide; lia.
  - intros Hw. apply IH in Hw. rewrite Hw.
    rewrite length_removelast'. unfold final_len_a.
    assert (0 < length b)%nat by (destruct b; [done|simpl; lia]).
    pose proof (half_up_bounds m). repeat case_decide; lia.
Qed.

(** Over the budget, the result is known in closed form: [tokens_a] keeps
    its first [final_len_a] tokens and [tokens_b] the rest of the budget.
    So a list no longer than half the budget is left whole, and when both
    are cut [tokens_a] gets the extra token of an odd budget. *)
Theorem truncate_closed_form m a b :
  0 <= m -> m < Z.of_nat (length a + length b) ->
  let k := final_len_a m (Z.of_nat (length a)) (Z.of_nat (length b)) in
  _truncate_seq_pair a b m
  = Some (Ok (take (Z.to_nat k) a, take (Z.to_nat (m - k)) b)).
Proof.
  intros Hm Hover k.
  destruct (truncate_loop_total (S (length a + length b)) m a b Hm)
    as (a' & b' & Hw & Hlen & _ & _ & Hpa & Hpb); [lia|].
  pose proof (truncate_loop_lengths _ _ _ _ _ _ Hm Hw) as Ha.
  rewrite decide_False in Ha by lia. fold k in Ha.
  assert (0 <= k) by (unfold k, final_len_a; pose proof (half_up_bounds m); lia).
  unfold _truncate_seq_pair. rewrite Hw. do 3 f_equal.
  - rewrite (prefix_take_length a' a Hpa) at 1. f_equal. lia.
  - rewrite (prefix_take_length b' b Hpb) at 1. f_equal. lia.
Qed.
End TruncateMore.

Lemma truncate_negative_budget_raises_witness :
  Truncate._truncate_seq_pair [1; 2] [3] (-2) = Some (Raise IndexError).
Proof. apply truncate_negative_budget_raises. lia. Defined.

Lemma truncate_closed_form_witness :
  Truncate._truncate_seq_pair [1; 2; 3; 4; 5] [6; 7; 8] 5
  = Some (Ok ([1; 2; 3], [6; 7])).
Proof. apply (truncate_closed_form 5 [1; 2; 3; 4; 5] [6; 7; 8]); simpl; lia. Defined.

(** ** The turn encoder: length budget *)

Section EncoderMore.
Variable tokenize : string -> list string.
Import SUMBTDataset.

(** For [max_seq_length >= 3] an encoded turn never has more than
    [max_seq_length] tokens, and its two segment lengths add up to the
    number of tokens, the first counting at least [CLS] and [SEP]. *)
Theorem encode_turn_within_max_seq_length (max_seq_length : Z)
    (text_a : string) (text_b : option string)
    (tokens : list string) (input_len : list Z) :
  3 <= max_seq_length ->
  encode_turn tokenize max_seq_length text_a text_b = Ok (tokens, input_len) ->
  Z.of_nat (length tokens) <= max_seq_length
  /\ exists len_a len_b,
       input_len = [len_a; len_b]
       /\ len_a + len_b = Z.of_nat (length tokens)
       /\ 2 <= len_a /\ 0 <= len_b.
Proof.
  intros Hmsl. unfold encode_turn.
  set (all_a := sep_token <$> tokenize text_a).
  destruct (truthy text_b) as [b|].
  - destruct (truncate_loop_total
                (S (length all_a + length (sep_token <$> tokenize b)))
                (max_seq_length - 3) all_a (sep_token <$> tokenize b))
      as (ta & tb & Hw & Hlen & _); [lia|lia|].
    unfold truncate_call, Truncate._truncate_seq_pair. rewrite Hw.
    cbn [default mbind res_bind].
    clear Hw.
    destruct tb as [|t tb]; intros [= <- <-];
      simpl in *; rewrite ?length_app; simpl; rewrite ?length_app; simpl;
      (split; [lia|]); eexists _, _; (split; [done|]); lia.
  - assert (exists tokens_a : list string,
              (if Z.of_nat (length all_a) >? max_seq_length - 2
               then Ok (slice all_a None (Some (max_seq_length - 2)), None)
               else Ok (all_a, @None (list string)))
              = Ok (tokens_a, None)
              /\ Z.of_nat (length tokens_a) <= max_seq_length - 2)
      as (tokens_a & -> & Hle).
    { destruct (Z.gtb_spec (Z.of_nat (length all_a)) (max_seq_length - 2)).
      - eexists. split; [done|]. rewrite slice_to_take, length_take by lia. lia.
      - eexists. split; [done|]. lia. }
    cbn [mbind res_bind]. intros [= <- <-].
    simpl. rewrite ?length_app. simpl. split; [lia|].
    eexists _, _. split; [done|]. lia.
Qed.

(** With [max_seq_length < 3] an example that has a second text cannot be
    encoded at all: the truncation budget is negative and the call fails
    with [IndexError], whatever the texts. *)
Theorem encode_turn_pair_needs_three (max_seq_length : Z) (text_a : string)
    (text_b : option string) (b : string) :
  max_seq_length < 3 -> truthy text_b = Some b ->
  encode_turn tokenize max_seq_length text_a text_b = Raise IndexError.
Proof.
  intros Hmsl Hb. unfold encode_turn. rewrite Hb.
  unfold truncate_call, Truncate._truncate_seq_pair.
  rewrite truncate_loop_negative by lia. done.
Qed.
End EncoderMore.

Lemma encode_turn_within_max_seq_length_witness :
  SUMBTDataset.encode_turn StandIn.tokenize 6 "abcd" (Some "cde")
  = Ok (["[CLS]"; "a"; "b"; "[SEP]"; "c"; "[SEP]"], [4; 2])
  /\ Z.of_nat (length ["[CLS]"; "a"; "b"; "[SEP]"; "c"; "[SEP]"]) <= 6.
Proof.
  split; [reflexivity|].
  apply (encode_turn_within_max_seq_length StandIn.tokenize 6 "abcd" (Some "cde")
           _ [4; 2]); [lia|reflexivity].
Defined.

Lemma encode_turn_pair_needs_three_witness :
  SUMBTDataset.encode_turn StandIn.tokenize 2 "ab" (Some "cd") = Raise IndexError.
Proof.
  apply (encode_turn_pair_needs_three StandIn.tokenize 2 "ab" (Some "cd") "cd");
    [lia|reflexivity].
Defined.

(** ** [DataProcessor._read_tsv]: what is kept *)

Lemma read_loop_keeps (reader : list (list string)) (lines : list (list string)) :
  (forall row, row ∈ reader -> row !! 0%nat <> Some EmptyString) ->
  for_each
    (fun lines line =>
       skip ← Reader.is_comment line;
       if (skip : bool) then Ok lines else Ok (lines ++ [line]))
    reader lines
  = Ok (lines ++ filter (fun row => hash_row row = false) reader).
Proof.
  revert lines. induction reader as [|row reader IH]; intros lines Hrows;
    cbn [for_each].
  - by rewrite filter_nil, app_nil_r.
  - assert (Reader.is_comment row = Ok (hash_row row)) as ->.
    { destruct row as [|[|c field] row]; [done| |done].
      destruct (Hrows (EmptyString :: row)); [left|done]. }
    destruct (hash_row row) eqn:Hh; cbn [mbind res_bind];
      rewrite IH by (intros r Hr; apply Hrows; by right).
    + by rewrite filter_cons_False by (by rewrite Hh).
    + rewrite filter_cons_True by done. by rewrite <- app_assoc.
Qed.

(** When no row has an empty first field, the reader returns the rows in
    file order without those whose first field starts with ["#"]; blank
    rows (no field at all) are kept. *)
Theorem read_tsv_drops_hash_rows (reader : list (list string)) :
  (forall row, row ∈ reader -> row !! 0%nat <> Some EmptyString) ->
  Reader._read_tsv reader
  = Ok (filter (fun row => hash_row row = false) reader).
Proof. intros Hrows. unfold Reader._read_tsv. by rewrite read_loop_keeps. Qed.

Lemma read_tsv_drops_hash_rows_witness :
  Reader._read_tsv [["d1"; "0"; "hi"]; ["# a comment"]; []; ["d1"; "1"; "# no"]]
  = Ok [["d1"; "0"; "hi"]; []; ["d1"; "1"; "# no"]].
Proof.
  apply (read_tsv_drops_hash_rows
           [["d1"; "0"; "hi"]; ["# a comment"]; []; ["d1"; "1"; "# no"]]).
  intros row Hrow. repeat (apply elem_of_cons in Hrow as [->|Hrow]; [done|]).
  by apply elem_of_nil in Hrow.
Defined.

(** ** [Processor._create_examples]: fields, short rows, accumulated text *)

Lemma comprehension_fields (line : list string) (k s n : nat) :
  (k + s + n <= length line)%nat ->
  comprehension (fun idx => item line (k + idx)) (seq s n)
  = Ok (take n (drop (k + s) line)).
Proof.
  revert s. induction n as [|n IH]; intros s Hlen; [done|].
  cbn [seq comprehension].
  destruct (item_ok line (k + s)) as (x & -> & Hx); [lia|].
  cbn [mbind res_bind]. rewrite IH by lia. cbn [mbind res_bind].
  rewrite (drop_S _ _ _ Hx). simpl. by rewrite Nat.add_succ_r.
Qed.

Lemma comprehension_fields_short (line : list string) (k s n : nat) :
  (0 < n)%nat -> (length line < k + s + n)%nat ->
  comprehension (fun idx => item line (k + idx)) (seq s n) = Raise IndexError.
Proof.
  revert s. induction n as [|n IH]; intros s Hn Hlen; [lia|].
  cbn [seq comprehension].
  destruct (decide (k + s < length line)%nat) as [Hin|Hout].
  - destruct (item_ok line (k + s)) as (x & -> & _); [done|].
    cbn [mbind res_bind]. rewrite IH by lia. done.
  - unfold item. rewrite lookup_ge_None_2 by lia. done.
Qed.

Section ProcessorMore.
Import Processor.
Variable nslots : nat.
Variable set_type : string.
Variable accumulation : bool.

Lemma create_body_full (st : state) (line : list string) :
  texts_assigned st -> full_row nslots line ->
  exists prev text_a text_b ex,
    create_body nslots set_type accumulation st line
    = Ok (prev, Some text_a, Some text_b, st.2 ++ [ex])
    /\ example_of nslots set_type accumulation line ex.
Proof.
  destruct st as [[[prev text_a] text_b] examples].
  unfold texts_assigned, full_row. intros Hassigned Hfull.
  destruct (item_ok line 0) as (l0 & Hi0 & Hl0); [lia|].
  destruct (item_ok line 1) as (l1 & Hi1 & Hl1); [lia|].
  destruct (item_ok line 2) as (l2 & Hi2 & Hl2); [lia|].
  destruct (item_ok line 3) as (l3 & Hi3 & Hl3); [lia|].
  unfold create_body. rewrite Hi0, Hi1. cbn [mbind res_bind].
  rewrite (comprehension_fields line 4 0 nslots) by lia.
  rewrite (comprehension_fields line (4 + nslots) 0 nslots) by lia.
  rewrite !Nat.add_0_r.
  assert (forall p ta tb,
            example_of nslots set_type accumulation line
              (InputExample.mk (set_type +:+ "-" +:+ l0 +:+ "-" +:+ l1) ta
                 (Some tb) (take nslots (drop 4 line))
                 (take nslots (drop (4 + nslots) line)))
            -> exists (prev' : option string) text_a' text_b' ex,
                 Ok (p, Some ta, Some tb,
                     examples
                     ++ [InputExample.mk (set_type +:+ "-" +:+ l0 +:+ "-" +:+ l1)
                           ta (Some tb) (take nslots (drop 4 line))
                           (take nslots (drop (4 + nslots) line))])
                 = Ok (prev', Some text_a', Some text_b', examples ++ [ex])
                 /\ example_of nslots set_type accumulation line ex) as Hdone.
  { intros p ta tb Hex. by eexists p, ta, tb, _. }
  destruct accumulation.
  - case_bool_decide as Hreset.
    + rewrite Hi2, Hi3. cbn [mbind res_bind]. apply Hdone.
      split; [by exists l0, l1|]. done.
    + destruct Hassigned as [->|[[ta ->] [tb ->]]].
      { exfalso. apply Hreset. by left. }
      rewrite Hi2, Hi3. cbn [mbind res_bind local]. apply Hdone.
      split; [by exists l0, l1|]. done.
  - rewrite Hi2, Hi3. cbn [mbind res_bind]. apply Hdone.
    split; [by exists l0, l1|]. repeat split; try done. by exists l3.
Qed.

Lemma slot_fields_short {A : Type} (line : list string)
    (k : list string -> list string -> res A) :
  ~ full_row nslots line -> (4 <= length line)%nat ->
  (label ← comprehension (fun idx => item line (4 + idx)) (seq 0 nslots);
   update ← comprehension (fun idx => item line (4 + nslots + idx)) (seq 0 nslots);
   k label update) = Raise IndexError.
Proof.
  unfold full_row. intros Hshort Hfour.
  assert (0 < nslots)%nat by lia.
  destruct (decide (4 + nslots <= length line)%nat) as [Hlab|Hlab].
  - rewrite (comprehension_fields _ 4 0 nslots) by lia.
    cbn [mbind res_bind].
    by rewrite (comprehension_fields_short _ (4 + nslots) 0 nslots) by lia.
  - by rewrite (comprehension_fields_short _ 4 0 nslots) by lia.
Qed.

Lemma create_body_short (st : state) (line : list string) :
  texts_assigned st -> ~ full_row nslots line ->
  create_body nslots set_type accumulation st line = Raise IndexError.
Proof.
  destruct st as [[[prev text_a] text_b] examples].
  unfold texts_assigned. intros Hassigned Hshort.
  unfold create_body.
  destruct line as [|l0 [|l1 [|l2 [|l3 rest]]]]; try done.
  - simpl. destruct accumulation; [|done]. by case_bool_decide.
  - simpl. destruct accumulation; [|done].
    case_bool_decide as Hreset; [done|].
    destruct Hassigned as [->|[[ta ->] [tb ->]]]; [|done].
    exfalso. apply Hreset. by left.
  - remember (l0 :: l1 :: l2 :: l3 :: rest) as line eqn:Hline.
    assert (item line 0 = Ok l0) as -> by (by subst).
    assert (item line 1 = Ok l1) as -> by (by subst).
    assert (item line 2 = Ok l2) as -> by (by subst).
    assert (item line 3 = Ok l3) as -> by (by subst).
    assert (4 <= length line)%nat as Hfour by (subst; simpl; lia).
    cbn [mbind res_bind].
    destruct accumulation.
    + case_bool_decide as Hreset.
      * cbn [mbind res_bind]. by apply slot_fields_short.
      * destruct Hassigned as [->|[[ta ->] [tb ->]]].
        { exfalso. apply Hreset. by left. }
        cbn [mbind res_bind local]. by apply slot_fields_short.
    + cbn [mbind res_bind]. by apply slot_fields_short.
Qed.

Lemma create_loop_full (lines : list (list string)) (st : state) :
  texts_assigned st -> Forall (full_row nslots) lines ->
  exists prev text_a text_b new,
    for_each (create_body nslots set_type accumulation) lines st
    = Ok (prev, text_a, text_b, st.2 ++ new)
    /\ Forall2 (example_of nslots set_type accumulation) lines new.
Proof.
  revert st. induction lines as [|line lines IH]; intros st Hst Hfull;
    cbn [for_each].
  - destruct st as [[[prev text_a] text_b] examples].
    exists prev, text_a, text_b, []. simpl. by rewrite app_nil_r.
  - apply Forall_cons in Hfull as [Hline Hfull].
    destruct (create_body_full st line Hst Hline)
      as (prev & ta & tb & ex & -> & Hex).
    cbn [mbind res_bind].
    destruct (IH (prev, Some ta, Some tb, st.2 ++ [ex]))
      as (prev' & ta' & tb' & new & -> & HF); [|done|].
    { right. by split; eexists. }
    exists prev', ta', tb', (ex :: new). simpl. rewrite <- app_assoc.
    split; [done|]. by constructor.
Qed.

Lemma create_loop_short (lines : list (list string)) (st : state) :
  texts_assigned st -> Exists (fun line => ~ full_row nslots line) lines ->
  for_each (create_body nslots set_type accumulation) lines st
  = Raise IndexError.
Proof.
  revert st. induction lines as [|line lines IH]; intros st Hst Hex;
    [by apply Exists_nil in Hex|].
  cbn [for_each].
  destruct (decide (4 + 2 * nslots <= length line)%nat) as [Hfull|Hshort].
  - apply Exists_cons in Hex as [?|Hex]; [done|].
    destruct (create_body_full st line Hst Hfull)
      as (prev & ta & tb & ex & -> & _).
    cbn [mbind res_bind]. apply IH; [|done]. right. by split; eexists.
  - by rewrite create_body_short.
Qed.

(** Rows with all their fields give one example per row, in row order,
    with the guid ["{set_type}-{dialogue}-{turn}"], the labels and update
    flags taken from the two blocks of [nslots] fields after the fourth,
    and, without accumulation, the texts of the third and fourth fields.
    Fields beyond [4 + 2 * nslots] are ignored. *)
Theorem create_examples_row_fields (lines : list (list string)) :
  Forall (full_row nslots) lines ->
  exists examples,
    _create_examples nslots lines set_type accumulation = Ok examples
    /\ Forall2 (example_of nslots set_type accumulation) lines examples.
Proof.
  intros Hfull. unfold _create_examples.
  destruct (create_loop_full lines (None, None, None, []))
    as (prev & ta & tb & new & -> & HF); [by left|done|].
  by exists new.
Qed.

(** One row with fewer than [4 + 2 * nslots] fields makes the whole call
    fail with [IndexError], with or without accumulation: no example of any
    other row is returned. *)
Theorem create_examples_short_row_raises (lines : list (list string)) :
  Exists (fun line => ~ full_row nslots line) lines ->
  _create_examples nslots lines set_type accumulation = Raise IndexError.
Proof.
  intros Hex. unfold _create_examples.
  rewrite create_loop_short; [done|by left|done].
Qed.
End ProcessorMore.

Lemma create_examples_row_fields_witness :
  exists examples,
    Processor._create_examples 1
      [["d1"; "0"; "hi"; "hello"; "none"; "0"; "extra"];
       ["d1"; "1"; "east"; "ok"; "east"; "1"]] "dev" false = Ok examples
    /\ InputExample.label <$> examples = [["none"]; ["east"]]
    /\ InputExample.guid <$> examples = ["dev-d1-0"; "dev-d1-1"].
Proof.
  destruct (create_examples_row_fields 1 "dev" false
      [["d1"; "0"; "hi"; "hello"; "none"; "0"; "extra"];
       ["d1"; "1"; "east"; "ok"; "east"; "1"]]) as (examples & Hex & _).
  { unfold full_row. repeat constructor. }
  exists examples. split; [exact Hex|].
  vm_compute in Hex. injection Hex as <-. split; reflexivity.
Defined.

Lemma create_examples_short_row_raises_witness :
  Processor._create_examples 1
    [["d1"; "0"; "hi"; "hello"; "none"; "0"]; ["d1"; "1"; "east"; "ok"; "east"]]
    "dev" true = Raise IndexError.
Proof.
  apply create_examples_short_row_raises.
  apply Exists_cons. right. apply Exists_cons. left.
  unfold full_row. simpl. lia.
Defined.

Lemma join_cons (sep x : string) (l : list string) :
  l <> [] -> join sep (x :: l) = x +:+ sep +:+ join sep l.
Proof. by destruct l. Qed.

Lemma history_snoc (k : nat) (rows : list (list string)) (line : list string)
    (field : string) :
  rows <> [] -> line !! k = Some field ->
  history k (rows ++ [line]) = field +:+ " # " +:+ history k rows.
Proof.
  intros Hne Hfield. unfold history.
  rewrite fmap_app, reverse_app. simpl. rewrite Hfield. simpl.
  apply join_cons. destruct rows; [done|].
  rewrite fmap_cons, reverse_cons. by destruct (reverse _).
Qed.

(** With accumulation, the texts of a turn are the whole history of its
    dialogue so far: the utterances (resp. responses) of the rows from the
    first row of the dialogue's run to this one, newest first, joined by
    [" # "]. *)
Theorem accumulation_is_dialogue_history (nslots : nat) (set_type : string)
    (lines : list (list string)) (examples : list InputExample.t)
    (did : string) (j d : nat) (ex : InputExample.t) :
  Forall (full_row nslots) lines ->
  Processor._create_examples nslots lines set_type true = Ok examples ->
  dialogue_run lines did j d ->
  examples !! (j + d)%nat = Some ex ->
  InputExample.text_a ex = history 2 (take (S d) (drop j lines))
  /\ InputExample.text_b ex = Some (history 3 (take (S d) (drop j lines))).
Proof.
  intros Hfull Hrun [Hsame Hstart].
  destruct (create_loop_inv nslots set_type lines Hfull)
    as ([[[prev ta] tb] exs] & Hloop & Hlen & Hacc & _).
  unfold Processor._create_examples in Hrun. rewrite Hloop in Hrun.
  cbn [mbind res_bind] in Hrun. injection Hrun as <-.
  revert ex. induction d as [|d IH]; intros ex Hex.
  - rewrite Nat.add_0_r in Hex.
    destruct (lookup_lt_is_Some_2 lines j) as [line Hline].
    { rewrite <- Hlen. by eapply lookup_lt_Some. }
    destruct (Hacc j line ex Hline Hex) as (did' & utt & resp & H0 & H2 & H3 & Hcase).
    assert (did' = did) as ->.
    { specialize (Hsame 0%nat line). rewrite Nat.add_0_r in Hsame.
      rewrite Hsame in H0 by (done || lia). by injection H0. }
    rewrite (take_S_r _ _ line) by (by rewrite lookup_drop, Nat.add_0_r).
    rewrite take_0. unfold history. simpl. rewrite H2, H3. simpl.
    destruct j as [|j'].
    + destruct Hcase as [-> ->]. done.
    + destruct Hcase as (pline & pex & pdid & Hpl & _ & Hp0 & Hcase).
      destruct Hstart as (prev' & pdid' & Hprev & Hpd & Hne).
      simplify_eq. rewrite decide_False in Hcase by done.
      by destruct Hcase as [-> ->].
  - replace (j + S d)%nat with (S (j + d)) in Hex by lia.
    destruct (lookup_lt_is_Some_2 lines (S (j + d))) as [line Hline].
    { rewrite <- Hlen. by eapply lookup_lt_Some. }
    destruct (Hacc _ line ex Hline Hex)
      as (did' & utt & resp & H0 & H2 & H3 & pline & pex & pdid & Hpl & Hpe & Hp0 & Hcase).
    assert (did' = did) as ->.
    { specialize (Hsame (S d) line).
      replace (j + S d)%nat with (S (j + d)) in Hsame by lia.
      rewrite Hsame in H0 by (done || lia). by injection H0. }
    assert (pdid = did) as ->.
    { rewrite (Hsame d pline) in Hp0 by (done || lia). by injection Hp0. }
    rewrite decide_True in Hcase by done.
    destruct Hcase as (prev_b & Hpb & -> & ->).
    destruct IH with (ex := pex) as [IHa IHb]; [|done|].
    { intros k l Hk. apply Hsame. lia. }
    rewrite IHa. rewrite Hpb in IHb. injection IHb as ->.
    rewrite (take_S_r _ (S d) line)
      by (rewrite lookup_drop; by replace (j + S d)%nat with (S (j + d)) by lia).
    assert (take (S d) (drop j lines) <> []) as Hne.
    { rewrite (take_S_r _ _ pline) by (by rewrite lookup_drop).
      by destruct (take d _). }
    by rewrite !(history_snoc _ _ line _ Hne) by done.
Qed.

Lemma accumulation_is_dialogue_history_witness :
  exists examples ex,
    Processor._create_examples 1
      [["d0"; "0"; "x"; "y"; "none"; "0"];
       ["d1"; "0"; "hi"; "hello"; "none"; "0"];
       ["d1"; "1"; "east"; "ok"; "east"; "1"];
       ["d1"; "2"; "more"; "sure"; "east"; "0"]] "train" true = Ok examples
    /\ examples !! 3%nat = Some ex
    /\ InputExample.text_a ex = "more # east # hi"
    /\ InputExample.text_b ex = Some "sure # ok # hello".
Proof.
  destruct (Processor._create_examples 1
      [["d0"; "0"; "x"; "y"; "none"; "0"];
       ["d1"; "0"; "hi"; "hello"; "none"; "0"];
       ["d1"; "1"; "east"; "ok"; "east"; "1"];
       ["d1"; "2"; "more"; "sure"; "east"; "0"]] "train" true)
    as [examples|e] eqn:Hrun; [|discriminate Hrun].
  destruct (examples !! 3%nat) as [ex|] eqn:Hex.
  2:{ vm_compute in Hrun. injection Hrun as <-. discriminate Hex. }
  exists examples, ex. split; [reflexivity|]. split; [exact Hex|].
  apply (accumulation_is_dialogue_history 1 "train"
      [["d0"; "0"; "x"; "y"; "none"; "0"];
       ["d1"; "0"; "hi"; "hello"; "none"; "0"];
       ["d1"; "1"; "east"; "ok"; "east"; "1"];
       ["d1"; "2"; "more"; "sure"; "east"; "0"]] examples "d1" 1 2 ex).
  - unfold full_row. repeat constructor.
  - exact Hrun.
  - split.
    + intros k line Hk Hline.
      destruct k as [|[|[|k]]]; [| | |lia]; simpl in Hline; by simplify_eq.
    + by exists ["d0"; "0"; "x"; "y"; "none"; "0"], "d0".
  - exact Hex.
Defined.

(** ** Guids: what [_create_examples] writes, [__init__] reads back *)

Lemma split_on_nonempty (sep : ascii) (s : string) : split_on sep s <> [].
Proof.
  induction s as [|c s IH]; [done|]. simpl.
  case_decide; [done|]. by destruct (split_on sep s).
Qed.

Lemma split_on_dash_free (s : string) :
  dash_free s -> split_on "-" s = [s].
Proof.
  induction s as [|c s IH]; [done|]. intros [Hc Hs]. simpl.
  rewrite decide_False by done. by rewrite IH.
Qed.

Lemma split_on_dash_free_head (s t : string) :
  dash_free s -> split_on "-" (s +:+ "-" +:+ t) = s :: split_on "-" t.
Proof.
  induction s as [|c s IH]; [done|]. intros [Hc Hs].
  change (String c s +:+ "-" +:+ t) with (String c (s +:+ "-" +:+ t)).
  cbn [split_on]. rewrite decide_False by done. by rewrite IH.
Qed.



Lemma slice_drop_last {A : Type} (l : list A) (x : A) :
  slice (l ++ [x]) None (Some (-1)) = l.
Proof.
  unfold slice, clip. simpl. rewrite length_app. simpl.
  rewrite drop_0, Nat.sub_0_r.
  replace (Z.to_nat (Z.of_nat (length l + 1) + -1)) with (length l) by lia.
  by rewrite take_app_length.
Qed.

Lemma slice_inner {A : Type} (y : A) (l : list A) (x : A) :
  slice (y :: l ++ [x]) (Some 1) (Some (-1)) = l.
Proof.
  unfold slice, clip. simpl. rewrite length_app. simpl.
  replace (Z.to_nat (Z.of_nat (S (length l + 1)) + -1)) with (S (length l)) by lia.
  replace (Nat.min (Pos.to_nat 1) (S (length l + 1))) with 1%nat by lia.
  rewrite drop_0. replace (S (length l) - 1)%nat with (length l) by lia.
  by rewrite take_app_length.
Qed.



(** ** Label ids: the dictionaries of [__init__] and their inverse *)

Lemma lookup_enumerate {A : Type} (l : list A) (i : nat) :
  enumerate l !! i = (fun x => (i, x)) <$> l !! i.
Proof.
  unfold enumerate. rewrite lookup_zip_with.
  destruct (l !! i) as [x|] eqn:Hx.
  - rewrite lookup_seq_lt by (by eapply lookup_lt_Some). done.
  - by destruct (seq 0 (length l) !! i).
Qed.

Lemma comprehension_raises {A B : Type} (f : A -> res B) (xs : list A) (e : exn) :
  comprehension f xs = Raise e -> exists x, x ∈ xs /\ f x = Raise e.
Proof.
  induction xs as [|x xs IH]; [done|]. cbn [comprehension].
  destruct (f x) as [y|e'] eqn:Hx; cbn [mbind res_bind].
  - destruct (comprehension f xs) as [ys|e'] eqn:Hxs; [done|].
    cbn [mbind res_bind]. intros [= ->].
    destruct IH as (x' & Hin & Hx'); [done|]. exists x'. split; [by right|done].
  - intros [= ->]. exists x. split; [by left|done].
Qed.

Lemma label_dict_snoc (labels : list string) (x : string) :
  SUMBTDataset.label_dict (labels ++ [x])
  = <[x := length labels]> (SUMBTDataset.label_dict labels).
Proof.
  unfold SUMBTDataset.label_dict. by rewrite enumerate_snoc, foldl_app.
Qed.

Lemma label_dict_lookup (labels : list string) (l : string) (i : nat) :
  SUMBTDataset.label_dict labels !! l = Some i ->
  labels !! i = Some l
  /\ forall j, labels !! j = Some l -> (j <= i)%nat.
Proof.
  revert i. induction labels as [|x labels IH] using rev_ind; intros i.
  - unfold SUMBTDataset.label_dict. simpl. by rewrite lookup_empty.
  - rewrite label_dict_snoc.
    destruct (decide (x = l)) as [->|Hne].
    + rewrite lookup_insert_eq. intros [= <-]. split.
      * by rewrite lookup_app_r, Nat.sub_diag by lia.
      * intros j Hj. apply lookup_lt_Some in Hj.
        rewrite length_app in Hj. simpl in Hj. lia.
    + rewrite lookup_insert_ne by done. intros Hi.
      destruct (IH i Hi) as [Hl Hlast]. split.
      * by apply lookup_app_l_Some.
      * intros j Hj. apply Hlast.
        destruct (decide (j < length labels)%nat).
        -- by rewrite lookup_app_l in Hj.
        -- rewrite lookup_app_r in Hj by lia.
           destruct (j - length labels)%nat; simpl in Hj; [|done].
           by simplify_eq.
Qed.

Lemma label_dict_known (labels : list string) (l : string) :
  is_Some (SUMBTDataset.label_dict labels !! l) <-> l ∈ labels.
Proof.
  induction labels as [|x labels IH] using rev_ind.
  - unfold SUMBTDataset.label_dict. simpl. rewrite lookup_empty. split.
    + by intros [? ?].
    + by intros ?%elem_of_nil.
  - rewrite label_dict_snoc, elem_of_app, list_elem_of_singleton.
    destruct (decide (x = l)) as [->|Hne].
    + rewrite lookup_insert_eq. split; [by right|by eexists].
    + rewrite lookup_insert_ne by done. rewrite IH. split; [by left|].
      by intros [?|?].
Qed.

(** Every label id the constructor computes decodes back to its label:
    slot [i]'s id is a position in [label_list[i]], the last one at which
    the label stands, and [label_list[i][id]] is the label. *)
Theorem label_ids_decode_back (label_list : list (list string))
    (label : list string) (ids : list Z) :
  SUMBTDataset.label_ids_of (SUMBTDataset.label_dict <$> label_list) label
  = Ok ids ->
  length ids = length label
  /\ forall i l, label !! i = Some l ->
       exists id labels,
         ids !! i = Some id /\ label_list !! i = Some labels
         /\ 0 <= id < Z.of_nat (length labels)
         /\ item_int labels id = Ok l
         /\ forall j, labels !! j = Some l -> Z.of_nat j <= id.
Proof.
  unfold SUMBTDataset.label_ids_of. intros HF%comprehension_inv. split.
  { apply Forall2_length in HF. rewrite <- HF. unfold enumerate.
    rewrite length_zip_with, length_seq. lia. }
  intros i l Hl.
  assert (enumerate label !! i = Some (i, l)) as Hen
    by (by rewrite lookup_enumerate, Hl).
  destruct (Forall2_lookup_l _ _ _ _ _ HF Hen) as (id & Hid & Hf).
  apply bind_ok_inv in Hf as (d & Hd & Hf).
  apply bind_ok_inv in Hf as (k & Hk & [= <-]).
  unfold item in Hd. rewrite list_lookup_fmap in Hd.
  destruct (label_list !! i) as [labels|] eqn:Hlabels; [|done].
  simpl in Hd. injection Hd as <-.
  unfold dict_item in Hk.
  destruct (SUMBTDataset.label_dict labels !! l) as [k'|] eqn:Hk'; [|done].
  injection Hk as ->.
  destruct (label_dict_lookup _ _ _ Hk') as [Hk1 Hk2].
  exists (Z.of_nat k), labels. split; [done|]. split; [done|].
  pose proof (lookup_lt_Some _ _ _ Hk1). split; [lia|]. split.
  - unfold item_int. destruct (Z.leb_spec 0 (Z.of_nat k)); [|lia].
    unfold item. by rewrite Nat2Z.id, Hk1.
  - intros j Hj. apply Hk2 in Hj. lia.
Qed.

(** The label ids of an example are computed exactly when every label has
    a slot and is one of the slot's candidate values; otherwise the call
    fails with [IndexError] (more labels than slots) or [KeyError] (a label
    that is no candidate of its slot). *)
Theorem label_ids_need_known_labels (label_list : list (list string))
    (label : list string) :
  ((exists ids,
      SUMBTDataset.label_ids_of (SUMBTDataset.label_dict <$> label_list) label
      = Ok ids)
   <-> forall i l, label !! i = Some l ->
         exists labels, label_list !! i = Some labels /\ l ∈ labels)
  /\ forall e,
       SUMBTDataset.label_ids_of (SUMBTDataset.label_dict <$> label_list) label
       = Raise e ->
       e = IndexError \/ e = KeyError.
Proof.
  unfold SUMBTDataset.label_ids_of. split; [split|].
  - intros [ids HF%comprehension_inv] i l Hl.
    assert (enumerate label !! i = Some (i, l)) as Hen
      by (by rewrite lookup_enumerate, Hl).
    destruct (Forall2_lookup_l _ _ _ _ _ HF Hen) as (id & _ & Hf).
    apply bind_ok_inv in Hf as (d & Hd & Hf).
    apply bind_ok_inv in Hf as (k & Hk & _).
    unfold item in Hd. rewrite list_lookup_fmap in Hd.
    destruct (label_list !! i) as [labels|]; [|done].
    simpl in Hd. injection Hd as <-. exists labels. split; [done|].
    apply label_dict_known. unfold dict_item in Hk.
    destruct (SUMBTDataset.label_dict labels !! l); [by eexists|done].
  - intros Hknown.
    destruct (comprehension_ok
                (fun '(i, l) =>
                   d ← item (SUMBTDataset.label_dict <$> label_list) i;
                   k ← dict_item d l; Ok (Z.of_nat k)) (enumerate label))
      as (ids & Hids & _); [|by exists ids].
    intros [i l] Hin. apply list_elem_of_lookup in Hin as [i' Hin].
    rewrite lookup_enumerate in Hin.
    destruct (label !! i') as [l'|] eqn:Hl'; [|done].
    simpl in Hin. injection Hin as <- <-.
    destruct (Hknown _ _ Hl') as (labels & Hlabels & Hmem).
    apply label_dict_known in Hmem as [k Hk].
    exists (Z.of_nat k). unfold item, dict_item.
    by rewrite list_lookup_fmap, Hlabels; simpl; rewrite Hk.
  - intros e (x & _ & Hx)%comprehension_raises. destruct x as [i l].
    unfold item, dict_item in Hx.
    destruct ((SUMBTDataset.label_dict <$> label_list) !! i) as [d|];
      cbn [mbind res_bind] in Hx; [|left; congruence].
    destruct (d !! l); cbn [mbind res_bind] in Hx; [done|right; congruence].
Qed.

Lemma label_ids_decode_back_witness :
  SUMBTDataset.label_ids_of
    (SUMBTDataset.label_dict <$> [["none"; "east"; "west"]; ["none"; "thai"]])
    ["west"; "none"] = Ok [2; 0]
  /\ length [2; 0] = length ["west"; "none"].
Proof.
  split; [reflexivity|].
  apply (label_ids_decode_back [["none"; "east"; "west"]; ["none"; "thai"]]
           ["west"; "none"] [2; 0]).
  reflexivity.
Defined.

(** ** The dialogue assembler: what is kept and how it is grouped *)

Section AssemblerMore.
Variable tokenize : string -> list string.
Variable convert_tokens_to_ids : list string -> list Z.
Variable int : string -> option Z.
Import SUMBTDataset.

(** One turn of the second loop, read off its result. *)
Lemma init_body_spec label_map msl mtl af fs prev example af' fs' prev' :
  init_body tokenize convert_tokens_to_ids int label_map msl mtl
    (af, fs, prev) example = Ok (af', fs', prev') ->
  exists t af1 fs1,
    guid_turn int (InputExample.guid example) = Ok t
    /\ prev' = Some (dialogue_idx example, t)
    /\ (af1, fs1)
       = match prev with
         | Some (prev_dialogue_idx, _) =>
             if decide (prev_dialogue_idx <> dialogue_idx example)
             then (af ++ [fs], [])
             else (af, fs)
         | None => (af, fs)
         end
    /\ af' = af1
    /\ if match prev with
          | None => true
          | Some (_, prev_turn_idx) => prev_turn_idx <? mtl
          end
       then exists f,
              feature_of tokenize convert_tokens_to_ids int label_map msl
                example f
              /\ fs' = fs1 ++ [f]
       else fs' = fs1.
Proof.
  unfold init_body. fold (dialogue_idx example). intros H.
  apply bind_ok_inv in H as ([tokens input_len] & Henc & H).
  apply bind_ok_inv in H as (label_id & Hlab & H).
  apply bind_ok_inv in H as (t & Ht & H).
  set (split := match prev with
                | Some (prev_dialogue_idx, _) => _
                | None => _
                end) in H |- *.
  destruct split as [af1 fs1].
  apply bind_ok_inv in H as (fs2 & Hfs & H). simplify_eq.
  exists t, af', fs1. repeat (split; [done|]).
  case_match.
  - apply bind_ok_inv in Hfs as (update & Hupd & Hfs). simplify_eq.
    eexists. split; [|done].
    exists tokens, input_len. simpl. repeat split; done.
  - by simplify_eq.
Qed.

Lemma max_turn_loop (examples : list InputExample.t) (m0 m : Z) :
  for_each
    (fun max_turn example =>
       t ← guid_turn int (InputExample.guid example);
       Ok (if max_turn <? t then t else max_turn))
    examples m0 = Ok m ->
  m0 <= m
  /\ forall example t, example ∈ examples ->
       guid_turn int (InputExample.guid example) = Ok t -> t <= m.
Proof.
  revert m0. induction examples as [|ex examples IH]; intros m0;
    cbn [for_each].
  - intros [= <-]. split; [lia|]. by intros ex t ?%elem_of_nil.
  - intros H. apply bind_ok_inv in H as (m1 & Hbody & H).
    apply bind_ok_inv in Hbody as (t0 & Ht0 & [= <-]).
    destruct (IH _ H) as [Hle Hall]. split.
    + destruct (Z.ltb_spec m0 t0); lia.
    + intros example t [->|Hin]%elem_of_cons Ht.
      * rewrite Ht0 in Ht. injection Ht as <-.
        destruct (Z.ltb_spec m0 t0); lia.
      * by eapply Hall.
Qed.

Lemma init_loop_keeps_all label_map msl mtl examples af fs prev af' fs' prev' :
  for_each (init_body tokenize convert_tokens_to_ids int label_map msl mtl)
    examples (af, fs, prev) = Ok (af', fs', prev') ->
  match prev with None => True | Some (_, t) => t < mtl end ->
  (forall example t, example ∈ examples ->
     guid_turn int (InputExample.guid example) = Ok t -> t < mtl) ->
  exists new,
    Forall2 (feature_of tokenize convert_tokens_to_ids int label_map msl)
      examples new
    /\ concat (af' ++ [fs']) = concat (af ++ [fs]) ++ new.
Proof.
  revert af fs prev.
  induction examples as [|example examples IH]; intros af fs prev;
    cbn [for_each].
  - intros [= <- <- <-] _ _. exists []. split; [constructor|].
    by rewrite app_nil_r.
  - intros H Hprev Hall.
    apply bind_ok_inv in H as ([[af1 fs1] prev1] & Hbody & H).
    apply init_body_spec in Hbody
      as (t & af2 & fs2 & Ht & -> & Hsplit & -> & Hkeep).
    assert (t < mtl) as Hlt by (eapply Hall; [by left|done]).
    destruct (IH _ _ _ H) as (new & HF & Hcat); [done| |].
    { intros ex' t' Hin. apply Hall. by right. }
    assert (concat (af2 ++ [fs2]) = concat (af ++ [fs])) as Hsame.
    { destruct prev as [[pd pt]|]; [|by simplify_eq].
      case_decide; simplify_eq; [|done].
      by rewrite !concat_app; simpl; rewrite !app_nil_r. }
    assert (match prev with
            | None => true
            | Some (_, prev_turn_idx) => prev_turn_idx <? mtl
            end = true) as Htest.
    { destruct prev as [[pd pt]|]; [|done]. by apply Z.ltb_lt. }
    rewrite Htest in Hkeep. destruct Hkeep as (f & Hf & ->).
    exists (f :: new). split; [by constructor|].
    rewrite Hcat, <- Hsame, !concat_app. simpl.
    by rewrite !app_nil_r, <- !app_assoc.
Qed.

(** When [max_turn_length] is above every turn index of the data, the
    constructor loses nothing: the features of all dialogues, read in
    order, are the features of all examples in input order. *)
Theorem init_keeps_all_below_cap (examples : list InputExample.t)
    (label_list : list (list string)) (max_seq_length max_turn_length : Z)
    (all_features : list (list InputFeatures.t)) :
  __init__ tokenize convert_tokens_to_ids int examples label_list
    max_seq_length max_turn_length = Ok all_features ->
  (forall example t, example ∈ examples ->
     guid_turn int (InputExample.guid example) = Ok t ->
     t < max_turn_length) ->
  Forall2
    (feature_of tokenize convert_tokens_to_ids int (label_dict <$> label_list)
       max_seq_length)
    examples (concat all_features).
Proof.
  unfold __init__. intros H Hcap.
  apply bind_ok_inv in H as (max_turn & Hmax & H).
  apply bind_ok_inv in H as ([[af fs] prev] & Hloop & H). simplify_eq.
  apply max_turn_loop in Hmax as [_ Hmax].
  destruct (init_loop_keeps_all _ _ _ _ _ _ _ _ _ _ Hloop) as (new & HF & Hcat);
    [done| |].
  - intros example t Hin Ht.
    pose proof (Hmax _ _ Hin Ht). pose proof (Hcap _ _ Hin Ht). lia.
  - simpl in Hcat. by rewrite Hcat.
Qed.

Lemma init_loop_groups label_map msl mtl examples af fs prev af' fs' prev' :
  for_each (init_body tokenize convert_tokens_to_ids int label_map msl mtl)
    examples (af, fs, prev) = Ok (af', fs', prev') ->
  length af'
  = (length af
     + changes (match prev with
                | Some (d, _) => d :: (dialogue_idx <$> examples)
                | None => dialogue_idx <$> examples
                end))%nat.
Proof.
  revert af fs prev.
  induction examples as [|example examples IH]; intros af fs prev;
    cbn [for_each].
  - intros [= <- <- <-]. destruct prev as [[d t]|]; simpl; lia.
  - intros H. apply bind_ok_inv in H as ([[af1 fs1] prev1] & Hbody & H).
    apply init_body_spec in Hbody
      as (t & af2 & fs2 & Ht & -> & Hsplit & -> & _).
    rewrite (IH _ _ _ H). rewrite fmap_cons.
    destruct prev as [[pd pt]|]; [|by simplify_eq].
    cbn [changes].
    destruct (decide (pd = dialogue_idx example)) as [->|Hne].
    + rewrite decide_False in Hsplit by (by intros ?). by simplify_eq.
    + rewrite decide_True in Hsplit by done. simplify_eq.
      rewrite length_app. simpl. lia.
Qed.

(** The data set has one dialogue per run of consecutive examples with the
    same dialogue index, whether or not any turn of the run was kept: the
    number of dialogues is one more than the number of places where the
    dialogue index changes.  Without examples there is one dialogue, with
    no turn. *)
Theorem init_one_dialogue_per_run (examples : list InputExample.t)
    (label_list : list (list string)) (max_seq_length max_turn_length : Z)
    (all_features : list (list InputFeatures.t)) :
  __init__ tokenize convert_tokens_to_ids int examples label_list
    max_seq_length max_turn_length = Ok all_features ->
  length all_features = S (changes (dialogue_idx <$> examples)).
Proof.
  unfold __init__. intros H.
  apply bind_ok_inv in H as (max_turn & _ & H).
  apply bind_ok_inv in H as ([[af fs] prev] & Hloop & H). simplify_eq.
  apply init_loop_groups in Hloop. rewrite length_app, Hloop. simpl. lia.
Qed.
End AssemblerMore.

Lemma corpus_features :
  SUMBTDataset.__init__ StandIn.tokenize StandIn.convert_tokens_to_ids
    StandIn.int Corpus.examples Corpus.label_list 128 22
  = Ok Corpus.all_features.
Proof. reflexivity. Qed.

Lemma init_keeps_all_below_cap_witness :
  Forall2
    (feature_of StandIn.tokenize StandIn.convert_tokens_to_ids StandIn.int
       (SUMBTDataset.label_dict <$> Corpus.label_list) 128)
    Corpus.examples (concat Corpus.all_features).
Proof.
  apply (init_keeps_all_below_cap StandIn.tokenize StandIn.convert_tokens_to_ids
           StandIn.int Corpus.examples Corpus.label_list 128 22).
  - reflexivity.
  - intros example t Hin Ht. unfold Corpus.examples in Hin.
    repeat (apply elem_of_cons in Hin as [->|Hin];
            [vm_compute in Ht; injection Ht as <-; lia|]).
    by apply elem_of_nil in Hin.
Defined.

Lemma init_one_dialogue_per_run_witness :
  length Corpus.all_features = 2%nat.
Proof.
  apply (init_one_dialogue_per_run StandIn.tokenize StandIn.convert_tokens_to_ids
           StandIn.int Corpus.examples Corpus.label_list 128 22).
  reflexivity.
Defined.

Lemma split_on_parts_dash_free (s : string) :
  Forall dash_free (split_on "-" s).
Proof.
  induction s as [|c s IH]; [by repeat constructor|]. cbn [split_on].
  case_decide as Hc; [by constructor|].
  destruct (split_on "-" s) as [|w ws]; [by repeat constructor|].
  apply Forall_cons in IH as [Hw Hws]. by repeat constructor.
Qed.

Lemma split_on_join (l : list string) :
  l <> [] -> Forall dash_free l -> split_on "-" (join "-" l) = l.
Proof.
  induction l as [|x l IH]; [done|]. intros _ [Hx Hl]%Forall_cons.
  destruct l as [|y l]; [by apply split_on_dash_free|].
  rewrite join_cons by done. rewrite split_on_dash_free_head by done.
  by rewrite IH.
Qed.

(** The guid of a feature depends on the dialogue index only. *)
Lemma guid_from_dialogue_idx (example : InputExample.t) :
  join "-" (slice (split_on "-" (InputExample.guid example)) (Some 1) (Some (-1)))
  = guid_of_idx (dialogue_idx example).
Proof.
  unfold guid_of_idx, dialogue_idx.
  pose proof (split_on_nonempty "-" (InputExample.guid example)) as Hne.
  pose proof (split_on_parts_dash_free (InputExample.guid example)) as Hfree.
  destruct (split_on "-" (InputExample.guid example)) as [|x parts _]
    using rev_ind; [done|].
  rewrite slice_drop_last. apply Forall_app in Hfree as [Hfree _].
  destruct parts as [|y parts]; [done|].
  rewrite <- app_comm_cons, slice_inner.
  by rewrite split_on_join.
Qed.

Section GuidFacts.
Variable tokenize : string -> list string.
Variable convert_tokens_to_ids : list string -> list Z.
Variable int : string -> option Z.
Import SUMBTDataset.

Lemma init_loop_guids label_map msl mtl examples af fs prev af' fs' prev' :
  for_each (init_body tokenize convert_tokens_to_ids int label_map msl mtl)
    examples (af, fs, prev) = Ok (af', fs', prev') ->
  match prev with
  | None => fs = []
  | Some (d, _) => Forall (fun f => InputFeatures.guid f = guid_of_idx d) fs
  end ->
  Forall (fun features => exists g,
            Forall (fun f => InputFeatures.guid f = g) features) af ->
  Forall (fun features => exists g,
            Forall (fun f => InputFeatures.guid f = g) features) (af' ++ [fs']).
Proof.
  revert af fs prev.
  induction examples as [|example examples IH]; intros af fs prev;
    cbn [for_each].
  - intros [= <- <- <-] Hfs Haf. apply Forall_app. split; [done|].
    apply Forall_singleton. destruct prev as [[d t]|].
    + by exists (guid_of_idx d).
    + subst fs. by exists EmptyString.
  - intros H Hfs Haf.
    apply bind_ok_inv in H as ([[af1 fs1] prev1] & Hbody & H).
    apply init_body_spec in Hbody
      as (t & af2 & fs2 & Ht & -> & Hsplit & -> & Hkeep).
    apply (IH _ _ _ H).
    + assert (Forall (fun f => InputFeatures.guid f
                               = guid_of_idx (dialogue_idx example)) fs2) as Hfs2.
      { destruct prev as [[pd pt]|]; [|by simplify_eq].
        case_decide as Hd; simplify_eq; done. }
      match type of Hkeep with (if ?c then _ else _) => destruct c end.
      * destruct Hkeep as (f & Hf & ->). apply Forall_app. split; [done|].
        apply Forall_singleton.
        destruct Hf as (tokens & input_len & _ & _ & _ & _ & _ & ->).
        apply guid_from_dialogue_idx.
      * by subst fs1.
    + destruct prev as [[pd pt]|]; [|by simplify_eq].
      case_decide; simplify_eq; [|done].
      apply Forall_app. split; [done|]. apply Forall_singleton.
      by exists (guid_of_idx pd).
Qed.

(** All the features of one dialogue carry the same guid, so the first
    feature's guid, which the prediction writer uses for the whole dialogue,
    is the guid of every turn of it. *)
Theorem init_dialogue_shares_guid (examples : list InputExample.t)
    (label_list : list (list string)) (max_seq_length max_turn_length : Z)
    (all_features : list (list InputFeatures.t)) :
  __init__ tokenize convert_tokens_to_ids int examples label_list
    max_seq_length max_turn_length = Ok all_features ->
  forall features f1 f2,
    features ∈ all_features -> f1 ∈ features -> f2 ∈ features ->
    InputFeatures.guid f1 = InputFeatures.guid f2.
Proof.
  unfold __init__. intros H.
  apply bind_ok_inv in H as (max_turn & _ & H).
  apply bind_ok_inv in H as ([[af fs] prev] & Hloop & H). simplify_eq.
  apply init_loop_guids in Hloop; [|done|constructor].
  intros features f1 f2 Hin H1 H2.
  rewrite Forall_forall in Hloop. destruct (Hloop _ Hin) as [g Hg].
  rewrite Forall_forall in Hg. by rewrite (Hg f1), (Hg f2).
Qed.
End GuidFacts.

Lemma init_dialogue_shares_guid_witness :
  Forall (fun features =>
            forall f1 f2, f1 ∈ features -> f2 ∈ features ->
              InputFeatures.guid f1 = InputFeatures.guid f2)
    Corpus.all_features.
Proof.
  apply Forall_forall. intros features Hin f1 f2.
  apply (init_dialogue_shares_guid StandIn.tokenize
           StandIn.convert_tokens_to_ids StandIn.int Corpus.examples
           Corpus.label_list 128 22 Corpus.all_features eq_refl
           features f1 f2 Hin).
Defined.

(** ** [__getitem__] and [collate_fn]: failures and shapes *)

Lemma torch_tensor_inv (ll t : list (list Z)) :
  torch_tensor ll = Ok t -> uniform ll /\ t = ll.
Proof.
  destruct ll as [|r ll]; intros H.
  - simplify_eq/=. split; [by exists 0%nat|done].
  - unfold torch_tensor in H.
    destruct (forallb _ _) eqn:Hall in H; [|done]. simplify_eq.
    split; [|done]. exists (length r). apply Forall_forall.
    intros r' Hr'%list_elem_of_In.
    rewrite forallb_forall in Hall. by apply Nat.eqb_eq, Hall.
Qed.




Lemma max_list_app (l k : list nat) :
  max_list (l ++ k) = (max_list l `max` max_list k)%nat.
Proof. induction l as [|x l IH]; simpl; [done|]. rewrite IH. lia. Qed.

Lemma max_list_concat {A : Type} (f : A -> nat) (ll : list (list A)) :
  max_list (f <$> concat ll) = max_list ((fun l => max_list (f <$> l)) <$> ll).
Proof.
  induction ll as [|l ll IH]; [done|]. simpl.
  by rewrite fmap_app, max_list_app, IH.
Qed.

Lemma padding_fold (seq : list (list (list Z))) (pad : Z) (max_len max_dim : nat) :
  Forall (fun t => (length t <= max_len)%nat) seq ->
  foldl (fun result i =>
           match seq !! i with
           | Some src => alter (fun dst => Collate.assign_block dst src) i result
           | None => result
           end)
    (replicate (length seq) (replicate max_len (replicate max_dim pad)))
    (List.seq 0 (length seq))
  = pad_block max_len max_dim pad <$> seq.
Proof.
  intros Hbounds. apply list_eq. intros i.
  rewrite fold_alter_lookup, list_lookup_fmap.
  destruct (seq !! i) as [src|] eqn:Hi; simpl.
  - rewrite decide_True by (by eapply lookup_lt_Some).
    rewrite lookup_replicate_2 by (by eapply lookup_lt_Some). simpl.
    f_equal. apply assign_block_replicate.
    rewrite Forall_forall in Hbounds. apply Hbounds.
    apply list_elem_of_lookup. by exists i.
  - apply lookup_replicate_None. by apply lookup_ge_None.
Qed.

(** [padding] in closed form: every tensor is padded to the largest number
    of rows and the largest number of columns of the stack. *)
Lemma padding_max (seq : list (list (list Z))) (pad : Z) :
  seq <> [] -> Forall (fun t => t <> []) seq ->
  Collate.padding seq pad
  = Ok (pad_block (max_list (size0 <$> seq)) (max_list (columns <$> seq)) pad
          <$> seq).
Proof.
  intros Hne Hrows. unfold Collate.padding.
  rewrite py_max_max_list by (by destruct seq). cbn [mbind res_bind].
  rewrite (comprehension_total size1 columns).
  2:{ eapply Forall_impl; [exact Hrows|]. by intros [|r t]. }
  cbn [mbind res_bind].
  rewrite py_max_max_list by (by destruct seq). cbn [mbind res_bind].
  f_equal. apply padding_fold.
  apply Forall_forall. intros t Ht. apply max_list_elem_of_le.
  apply list_elem_of_fmap. by exists t.
Qed.

Lemma pad_block_shape (T W : nat) (pad : Z) (src : list (list Z)) :
  (length src <= T)%nat -> Forall (fun r => (length r <= W)%nat) src ->
  length (pad_block T W pad src) = T
  /\ Forall (fun r => length r = W) (pad_block T W pad src).
Proof.
  intros HT HW. split; [by apply length_pad_block|].
  unfold pad_block. apply Forall_app. split.
  - rewrite Forall_fmap. eapply Forall_impl; [exact HW|]. simpl.
    intros r Hr. rewrite length_app, length_replicate. lia.
  - apply Forall_forall. intros r [-> _]%elem_of_replicate.
    by rewrite length_replicate.
Qed.

Lemma padding_has_shape (seq : list (list (list Z))) (pad : Z) :
  seq <> [] -> Forall (fun t => t <> [] /\ uniform t) seq ->
  exists result,
    Collate.padding seq pad = Ok result
    /\ has_shape (length seq) (max_list (size0 <$> seq))
         (max_list (columns <$> seq)) result.
Proof.
  intros Hne Hall. eexists. split.
  { apply padding_max; [done|]. eapply Forall_impl; [exact Hall|]. by intros t []. }
  split; [by rewrite length_fmap|]. rewrite Forall_fmap.
  apply Forall_forall. intros t Ht. simpl.
  rewrite Forall_forall in Hall. destruct (Hall t Ht) as [Htne [n Hn]].
  apply pad_block_shape.
  - apply max_list_elem_of_le, list_elem_of_fmap. by exists t.
  - assert (n = columns t) as ->.
    { destruct t as [|r t]; [done|]. by inversion Hn. }
    assert (columns t <= max_list (columns <$> seq))%nat as Hle.
    { apply max_list_elem_of_le, list_elem_of_fmap. by exists t. }
    eapply Forall_impl; [exact Hn|]. simpl. intros r ->. done.
Qed.

Lemma getitem_inv (features : list InputFeatures.t) (it : Collate.item_t) :
  Collate.__getitem__ features = Ok it ->
  loadable features
  /\ it = Collate.mk_item
            (token_rows (max_list (num_tokens <$> features)) features)
            (InputFeatures.input_len <$> features)
            (InputFeatures.label_id <$> features)
            (InputFeatures.update <$> features)
            (InputFeatures.guid <$> features).
Proof.
  intros H. unfold Collate.__getitem__ in H.
  apply bind_ok_inv in H as (max_len & Hmax & H).
  assert (features <> []) as Hne by (by intros ->).
  rewrite py_max_max_list in Hmax by (by destruct features).
  injection Hmax as <-.
  apply bind_ok_inv in H as (ids & [_ ->]%torch_tensor_inv & H).
  apply bind_ok_inv in H as (len & [Hlen ->]%torch_tensor_inv & H).
  apply bind_ok_inv in H as (lab & [Hlab ->]%torch_tensor_inv & H).
  apply bind_ok_inv in H as (upd & [Hupd ->]%torch_tensor_inv & H).
  split; [done|]. injection H as <-. f_equal.
  unfold token_rows, num_tokens. by rewrite <- !list_fmap_compose.
Qed.

Lemma columns_token_rows (features : list InputFeatures.t) :
  features <> [] ->
  columns (token_rows (max_list (num_tokens <$> features)) features)
  = max_list (num_tokens <$> features).
Proof.
  destruct features as [|f features]; [done|]. intros _.
  cbn [token_rows fmap list_fmap columns max_list].
  rewrite length_app, length_replicate. unfold id, num_tokens at 1 3. lia.
Qed.

(** The batch the loader forms is rectangular and as small as the data
    allows: with [B] dialogues, each of the four tensors has [B] blocks of
    [T] rows, [T] the number of turns of the longest dialogue, rows of one
    width per tensor; the width of [input_ids] is the number of token ids
    of the longest turn of the whole batch. *)
Theorem load_batch_shape (dialogues : list (list InputFeatures.t))
    (batch : Collate.batch_t) :
  Collate.load_batch dialogues = Ok batch ->
  let B := length dialogues in
  let T := max_list (length <$> dialogues) in
  has_shape B T (max_list (num_tokens <$> concat dialogues))
    (Collate.input_ids batch)
  /\ (exists D, has_shape B T D (Collate.input_len batch))
  /\ (exists S, has_shape B T S (Collate.label_ids batch))
  /\ (exists U, has_shape B T U (Collate.update batch))
  /\ length (Collate.guids_list batch) = B
  /\ Collate.num_turns_list batch = length <$> dialogues.
Proof.
  intros H B T. unfold Collate.load_batch in H.
  apply bind_ok_inv in H as (items & Hitems & H).
  apply comprehension_inv in Hitems.
  assert (Forall loadable dialogues) as Hload.
  { clear -Hitems. induction Hitems as [|fs it ? ? Hit _ IH]; [done|].
    constructor; [by apply getitem_inv in Hit as [? _]|done]. }
  assert (Forall2 item_of dialogues items) as Hof.
  { clear -Hitems. induction Hitems as [|fs it ? ? Hit _ IH]; [constructor|].
    constructor; [|done]. split; [done|].
    destruct (getitem_inv _ _ Hit) as [Hl ->].
    eexists. split; [|done]. apply Forall_forall. intros f Hf.
    apply max_list_elem_of_le, list_elem_of_fmap. by exists f. }
  assert (Collate.item_input_ids <$> items
          = (fun fs => token_rows (max_list (num_tokens <$> fs)) fs)
            <$> dialogues) as Hids.
  { clear -Hitems. induction Hitems as [|fs it ? ? Hit _ IH]; [done|].
    rewrite !fmap_cons, IH. by destruct (getitem_inv _ _ Hit) as [_ ->]. }
  destruct (items_shape _ _ Hof Hload)
    as ((E1 & E2 & E3 & E4) & F1 & F2 & F3 & F4).
  assert (items <> []) as Hine.
  { intros ->. by simplify_eq/=. }
  assert (length items = B) as HB.
  { symmetry. by eapply Forall2_length. }
  unfold Collate.collate_fn in H.
  destruct (padding_has_shape (Collate.item_input_ids <$> items) 0)
    as (r1 & P1 & S1); [by destruct items|done|].
  destruct (padding_has_shape (Collate.item_input_len <$> items) 0)
    as (r2 & P2 & S2); [by destruct items|done|].
  destruct (padding_has_shape (Collate.item_label_ids <$> items) (-1))
    as (r3 & P3 & S3); [by destruct items|done|].
  destruct (padding_has_shape (Collate.item_update <$> items) (-1))
    as (r4 & P4 & S4); [by destruct items|done|].
  rewrite P1, P2, P3, P4 in H. cbn [mbind res_bind] in H.
  injection H as <-. cbn [Collate.input_ids Collate.input_len
    Collate.label_ids Collate.update Collate.guids_list
    Collate.num_turns_list].
  rewrite length_fmap, HB in S1, S2, S3, S4.
  rewrite E1 in S1. rewrite E2 in S2. rewrite E3 in S3. rewrite E4 in S4.
  repeat split; try (by apply S1 || by apply S2 || by apply S3 || by apply S4).
  - replace (max_list (num_tokens <$> concat dialogues))
      with (max_list (columns <$> (Collate.item_input_ids <$> items)));
      [by apply S1|].
    rewrite max_list_concat, Hids, <- list_fmap_compose. f_equal.
    apply Forall_fmap_ext. eapply Forall_impl; [exact Hload|].
    intros fs [Hne _]. simpl. by apply columns_token_rows.
  - eexists. split; [apply S2|apply S2].
  - eexists. split; [apply S3|apply S3].
  - eexists. split; [apply S4|apply S4].
  - by rewrite length_fmap.
  - rewrite <- E1. by rewrite <- !list_fmap_compose.
Qed.

Lemma load_batch_shape_witness :
  has_shape 2 2 6 (Collate.input_ids Sample.batch).
Proof.
  apply (load_batch_shape Sample.dialogues Sample.batch). reflexivity.
Defined.

(** ** [get_label_embedding] *)

Section LabelEmbeddingFacts.
Variable tokenize : string -> list string.
Variable convert_tokens_to_ids : list string -> list Z.
Import LabelEmbedding.

Local Abbreviation ids_of := (label_ids tokenize convert_tokens_to_ids).

Lemma label_body_cases (m : Z) (features : list (list Z * nat)) (label : string) :
  (Z.of_nat (length (ids_of label)) <= m
   /\ label_body tokenize convert_tokens_to_ids m features label
      = Ok (features
            ++ [(ids_of label
                 ++ replicate (Z.to_nat (m - Z.of_nat (length (ids_of label)))) 0,
                 length (ids_of label))]))
  \/ (m < Z.of_nat (length (ids_of label))
      /\ label_body tokenize convert_tokens_to_ids m features label
         = Raise AssertionError).
Proof.
  unfold label_body. rewrite length_app, length_replicate.
  destruct (decide (Z.of_nat (length (ids_of label)) <= m)).
  - left. split; [done|]. rewrite decide_True by lia. done.
  - right. split; [lia|]. rewrite decide_False by lia. done.
Qed.

Lemma label_loop_ok (m : Z) (labels : list string)
    (features : list (list Z * nat)) :
  Forall (fun label => Z.of_nat (length (ids_of label)) <= m) labels ->
  for_each (label_body tokenize convert_tokens_to_ids m) labels features
  = Ok (features
        ++ ((fun label =>
               (ids_of label
                ++ replicate (Z.to_nat (m - Z.of_nat (length (ids_of label)))) 0,
                length (ids_of label))) <$> labels)).
Proof.
  intros Hall. revert features.
  induction Hall as [|label labels Hlabel _ IH]; intros features;
    cbn [for_each]; [by rewrite app_nil_r|].
  destruct (label_body_cases m features label) as [[_ ->]|[? _]]; [|lia].
  cbn [mbind res_bind]. rewrite IH, fmap_cons, <- app_assoc. done.
Qed.

Lemma label_loop_raises (m : Z) (labels : list string)
    (features : list (list Z * nat)) :
  Exists (fun label => m < Z.of_nat (length (ids_of label))) labels ->
  for_each (label_body tokenize convert_tokens_to_ids m) labels features
  = Raise AssertionError.
Proof.
  intros Hex. revert features.
  induction labels as [|label labels IH]; intros features;
    [by apply Exists_nil in Hex|].
  cbn [for_each].
  destruct (label_body_cases m features label) as [[Hle ->]|[_ ->]]; [|done].
  cbn [mbind res_bind]. apply IH.
  apply Exists_cons in Hex as [?|?]; [lia|done].
Qed.

Lemma label_rows_uniform (m : Z) (labels : list string) :
  Forall (fun label => Z.of_nat (length (ids_of label)) <= m) labels ->
  uniform
    ((fun label =>
        ids_of label
        ++ replicate (Z.to_nat (m - Z.of_nat (length (ids_of label)))) 0)
     <$> labels).
Proof.
  intros Hall. exists (Z.to_nat m). rewrite Forall_fmap.
  eapply Forall_impl; [exact Hall|]. simpl. intros label Hle.
  rewrite length_app, length_replicate. lia.
Qed.

(** When no label has more than [max_seq_length] token ids (the two
    markers included), [get_label_embedding] returns one row per label, in
    order: the label's ids followed by zeros up to [max_seq_length]
    entries, and beside it the number of ids before the padding. *)
Theorem label_embedding_rows (labels : list string) (max_seq_length : Z) :
  Forall (fun label => Z.of_nat (length (ids_of label)) <= max_seq_length)
    labels ->
  exists rows,
    get_label_embedding tokenize convert_tokens_to_ids labels max_seq_length
    = Ok (rows, (fun label => length (ids_of label)) <$> labels)
    /\ Forall2 (fun label row => label_row max_seq_length (ids_of label) row)
         labels rows.
Proof.
  intros Hall. unfold get_label_embedding.
  rewrite (label_loop_ok _ _ _ Hall). cbn [mbind res_bind].
  rewrite app_nil_l, <- !list_fmap_compose.
  rewrite torch_tensor_uniform by (by apply label_rows_uniform).
  cbn [mbind res_bind]. eexists. split; [done|].
  apply Forall2_fmap_r, Forall_Forall2_diag.
  eapply Forall_impl; [exact Hall|]. simpl. intros label Hle.
  split; [|split].
  - rewrite length_app, length_replicate. lia.
  - by rewrite take_app_length.
  - rewrite drop_app_length. apply Forall_forall.
    by intros x [-> _]%elem_of_replicate.
Qed.

(** [get_label_embedding] returns if and only if no label has more than
    [max_seq_length] token ids; a longer label fails the assertion, as the
    padding of negative length is empty and leaves the row too long.  No
    other error is raised. *)
Theorem label_embedding_asserts_length (labels : list string)
    (max_seq_length : Z) :
  ((exists r,
      get_label_embedding tokenize convert_tokens_to_ids labels max_seq_length
      = Ok r)
   <-> Forall (fun label => Z.of_nat (length (ids_of label)) <= max_seq_length)
         labels)
  /\ (forall e,
        get_label_embedding tokenize convert_tokens_to_ids labels max_seq_length
        = Raise e -> e = AssertionError).
Proof.
  destruct (decide (Forall (fun label =>
              Z.of_nat (length (ids_of label)) <= max_seq_length) labels))
    as [Hall|Hex].
  - assert (exists r, get_label_embedding tokenize convert_tokens_to_ids
                        labels max_seq_length = Ok r) as [r Hr].
    { unfold get_label_embedding.
      rewrite (label_loop_ok _ _ _ Hall). cbn [mbind res_bind].
      rewrite app_nil_l, <- !list_fmap_compose.
      rewrite torch_tensor_uniform by (by apply label_rows_uniform).
      by eexists. }
    split; [split; [done|by exists r]|]. intros e He. congruence.
  - assert (get_label_embedding tokenize convert_tokens_to_ids labels
              max_seq_length = Raise AssertionError) as Hr.
    { unfold get_label_embedding. rewrite label_loop_raises; [done|].
      apply not_Forall_Exists in Hex; [|intros label; apply _].
      eapply Exists_impl; [exact Hex|]. simpl. intros label. lia. }
    split; [split|].
    + intros [r H]. congruence.
    + done.
    + intros e He. congruence.
Qed.
End LabelEmbeddingFacts.

Lemma label_embedding_rows_witness :
  exists rows,
    LabelEmbedding.get_label_embedding StandIn.tokenize
      StandIn.convert_tokens_to_ids ["none"; "east side"] 12
    = Ok (rows, [6; 10]%nat)
    /\ Forall2
         (fun label row =>
            label_row 12
              (LabelEmbedding.label_ids StandIn.tokenize
                 StandIn.convert_tokens_to_ids label) row)
         ["none"; "east side"] rows.
Proof.
  apply (label_embedding_rows StandIn.tokenize StandIn.convert_tokens_to_ids
           ["none"; "east side"] 12).
  repeat constructor; vm_compute; discriminate.
Defined.

(** ** Label ids through the prediction writer *)

Section GoldLabels.
Variable slot_meta : list string.
Variable ontology : gmap string (list string).
Import Main.

Lemma turn_state_decoded (slots : list string) (ids : list Z)
    (label st : list string) :
  length ids = length label ->
  (forall i s id, slots !! i = Some s -> ids !! i = Some id ->
     exists l, label !! i = Some l /\ decode ontology s id = Ok l) ->
  for_each
    (fun state '(s, p) =>
       v ← decode ontology s p;
       if decide (v <> "none") then Ok (state ++ [s +:+ "-" +:+ v])
       else Ok state) (zip slots ids) st
  = Ok (st ++ slot_strings (zip slots label)).
Proof.
  revert ids label st.
  induction slots as [|s slots IH]; intros ids label st Hlen Hdec.
  { cbn [zip zip_with for_each]. by rewrite app_nil_r. }
  destruct ids as [|id ids], label as [|l label]; try done.
  { cbn [zip zip_with for_each]. by rewrite app_nil_r. }
  cbn [zip zip_with for_each].
  destruct (Hdec 0%nat s id) as (l' & Hl' & Hd); [done|done|].
  injection Hl' as <-. rewrite Hd. cbn [mbind res_bind].
  unfold slot_strings. fold (zip slots label).
  assert (forall st',
            for_each
              (fun state '(s, p) =>
                 v ← decode ontology s p;
                 if decide (v <> "none") then Ok (state ++ [s +:+ "-" +:+ v])
                 else Ok state) (zip slots ids) st'
            = Ok (st' ++ slot_strings (zip slots label))) as Hrest.
  { intros st'. apply IH; [by injection Hlen|].
    intros i s' id' Hs' Hid'. by apply (Hdec (S i)). }
  case_decide as Hnone.
  - cbn [mbind res_bind]. rewrite Hrest.
    rewrite filter_cons_True by done. rewrite fmap_cons, <- app_assoc. done.
  - cbn [mbind res_bind]. rewrite Hrest.
    rewrite filter_cons_False; [done|]. simpl. tauto.
Qed.

(** Encoding a turn's labels with the constructor's label maps and decoding
    the ids as the prediction writer does gives the labels back: when the
    writer's ontology lists, slot by slot, the label lists the ids were
    computed from, the writer prints for these ids exactly the turn's
    ["{slot}-{label}"] strings whose label is not ["none"], in slot order. *)
Theorem gold_labels_print_back (label_list : list (list string))
    (label : list string) (ids : list Z) :
  Forall2 (fun s labels => ontology !! s = Some labels) slot_meta label_list ->
  SUMBTDataset.label_ids_of (SUMBTDataset.label_dict <$> label_list) label
  = Ok ids ->
  turn_state slot_meta ontology ids = Ok (slot_strings (zip slot_meta label)).
Proof.
  intros Hont HF. unfold SUMBTDataset.label_ids_of in HF.
  apply comprehension_inv in HF.
  assert (length ids = length label) as Hlen.
  { apply Forall2_length in HF. rewrite <- HF. unfold enumerate.
    rewrite length_zip_with, length_seq. lia. }
  unfold turn_state. rewrite <- (app_nil_l (slot_strings _)).
  apply turn_state_decoded; [done|].
  intros i s id Hs Hid.
  destruct (lookup_lt_is_Some_2 label i) as [l Hl].
  { rewrite <- Hlen. by eapply lookup_lt_Some. }
  exists l. split; [done|].
  assert (enumerate label !! i = Some (i, l)) as Hen
    by (by rewrite lookup_enumerate, Hl).
  destruct (Forall2_lookup_l _ _ _ _ _ HF Hen) as (id' & Hid' & Hf).
  simplify_eq.
  apply bind_ok_inv in Hf as (d & Hd & Hf).
  apply bind_ok_inv in Hf as (k & Hk & [= <-]).
  unfold item in Hd. rewrite list_lookup_fmap in Hd.
  destruct (label_list !! i) as [labels|] eqn:Hlabels; [|done].
  simpl in Hd. injection Hd as <-.
  unfold dict_item in Hk.
  destruct (SUMBTDataset.label_dict labels !! l) as [k'|] eqn:Hk'; [|done].
  injection Hk as ->.
  destruct (label_dict_lookup _ _ _ Hk') as [Hk1 _].
  destruct (Forall2_lookup_l _ _ _ _ _ Hont Hs) as (labels' & Hlabels' & Ho).
  simplify_eq. unfold decode, dict_item. rewrite Ho. cbn [mbind res_bind].
  unfold item_int. destruct (Z.leb_spec 0 (Z.of_nat k)); [|lia].
  unfold item. by rewrite Nat2Z.id, Hk1.
Qed.
End GoldLabels.

Lemma gold_labels_print_back_witness :
  Main.turn_state Sample.slot_meta Sample.ontology [2; 0]
  = Ok (slot_strings (zip Sample.slot_meta ["west"; "none"])).
Proof.
  apply (gold_labels_print_back Sample.slot_meta Sample.ontology
           [["none"; "east"; "west"]; ["none"; "thai"]]).
  - repeat constructor.
  - reflexivity.
Defined.
